(** * Alignment matrix control: value/id codec and selection model

    Shallow embedding of
    [packages/components/src/alignment-matrix-control] (utils.tsx and
    index.tsx) as it appears in the story bundle, and the properties of its
    normaliser, identifier codec, grid index lookup, change handler and
    cell rendering. *)

From Stdlib Require Import String Ascii List ZArith Lia Bool.
From Stdlib Require Import DecimalString.
Import ListNotations.
Local Open Scope string_scope.

(** ** The fragment of JavaScript the control relies on *)

Module JS.

(** Primitive values that reach the functions below.  The props of the
    control are strings, [undefined] or [null]; numbers and booleans are
    kept so that the behaviour on a non-string argument can be stated. *)
Inductive val : Type :=
| Undefined
| Null
| Str (s : string)
| Num (n : Z)
| Boolean (b : bool).

Inductive error : Type := TypeError.

(** Outcome of evaluating an expression: a value, or a thrown error. *)
Inductive completion (A : Type) : Type :=
| Normal (a : A)
| Throw (e : error).
Arguments Normal {A} a.
Arguments Throw {A} e.

Definition bind {A B : Type} (c : completion A) (k : A -> completion B)
  : completion B :=
  match c with
  | Normal a => k a
  | Throw e => Throw e
  end.

(** [a === b] on primitives. *)
Definition strict_eq (a b : val) : bool :=
  match a, b with
  | Undefined, Undefined => true
  | Null, Null => true
  | Str s, Str t => String.eqb s t
  | Num n, Num m => Z.eqb n m
  | Boolean x, Boolean y => Bool.eqb x y
  | _, _ => false
  end.

(** ToBoolean. *)
Definition truthy (v : val) : bool :=
  match v with
  | Undefined | Null => false
  | Str s => negb (String.eqb s "")
  | Num n => negb (Z.eqb n 0)
  | Boolean b => b
  end.

Fixpoint drop (n : nat) (s : string) : string :=
  match n, s with
  | O, _ => s
  | S _, EmptyString => EmptyString
  | S m, String _ r => drop m r
  end.

(** [s.replace(pat, rep)] for a string pattern: the leftmost occurrence of
    [pat] in [s] is replaced by [rep], the rest of [s] is kept; without an
    occurrence [s] is returned.  The replacement texts used by the control
    (a space, a hyphen, the empty string) contain no dollar sign, so the
    replacement is inserted literally. *)
Fixpoint replace (pat rep s : string) : string :=
  if String.prefix pat s then rep ++ drop (String.length pat) s
  else match s with
       | EmptyString => EmptyString
       | String c r => String c (replace pat rep r)
       end.

(** [v.replace(pat, rep)]: only strings carry the method; on any other
    primitive the call throws a TypeError. *)
Definition replace_method (v : val) (pat rep : string) : completion string :=
  match v with
  | Str s => Normal (replace pat rep s)
  | _ => Throw TypeError
  end.

(** [v?.replace(pat, rep)]: short-circuits to [undefined] on a nullish [v]. *)
Definition optional_replace (v : val) (pat rep : string) : completion val :=
  match v with
  | Undefined | Null => Normal Undefined
  | _ => bind (replace_method v pat rep) (fun s => Normal (Str s))
  end.

(** [arr.includes(v)] for an array of strings. *)
Definition includes (arr : list string) (v : val) : bool :=
  existsb (fun x => strict_eq (Str x) v) arr.

(** [arr.indexOf(v)]: position of the first strictly equal element, or -1. *)
Fixpoint indexOf_from (i : Z) (arr : list string) (v : val) : Z :=
  match arr with
  | [] => (-1)%Z
  | x :: r => if strict_eq (Str x) v then i else indexOf_from (i + 1)%Z r v
  end.

Definition indexOf (arr : list string) (v : val) : Z := indexOf_from 0%Z arr v.

(** A parameter [x = d]: the default [d] is taken when the argument is
    [undefined] (not when it is [null]). *)
Definition default_param (d arg : val) : val :=
  match arg with
  | Undefined => d
  | _ => arg
  end.

End JS.

Import JS.

Notation "x <- c ;; k" := (bind c (fun x => k))
  (at level 61, c at next level, right associativity).

(** ** utils.tsx *)

Definition GRID : list (list string) :=
  [ [ "top left"; "top center"; "top right" ];
    [ "center left"; "center center"; "center right" ];
    [ "bottom left"; "bottom center"; "bottom right" ] ].

(** [GRID.flat()] *)
Definition ALIGNMENTS : list string := concat GRID.

Definition normalize (value : val) : completion val :=
  let normalized :=
    if strict_eq (Str "center") value then Str "center center" else value in
  transformed <- optional_replace normalized "-" " " ;;
  Normal (if includes ALIGNMENTS transformed then transformed else Undefined).

Definition getItemId (prefixId : string) (value : val) : completion val :=
  normalized <- normalize value ;;
  if negb (truthy normalized) then Normal Undefined
  else
    id <- replace_method normalized " " "-" ;;
    Normal (Str (prefixId ++ "-" ++ id)).

Definition getItemValue (prefixId : string) (id : val) : completion val :=
  value <- optional_replace id (prefixId ++ "-") "" ;;
  normalize value.

Definition getAlignmentIndex (alignment : val) : completion val :=
  let alignment := default_param (Str "center") alignment in
  normalized <- normalize alignment ;;
  if negb (truthy normalized) then Normal Undefined
  else
    let index := indexOf ALIGNMENTS normalized in
    Normal (if (-1 <? index)%Z then Num index else Undefined).

(** The decoding as the specification words it: only a _leading_
    [prefix-] is stripped, and an id that does not start with it is
    normalised whole.  Kept apart from [getItemValue] for comparison. *)
Definition strip_leading (prefixId id : string) : string :=
  if String.prefix (prefixId ++ "-") id
  then drop (String.length (prefixId ++ "-")) id
  else id.

Definition getItemValue_leading (prefixId : string) (id : val) : completion val :=
  match id with
  | Str s => normalize (Str (strip_leading prefixId s))
  | _ => Normal Undefined
  end.

(** Arguments the TypeScript signatures admit: [string | null | undefined]. *)
Definition string_or_nullish (v : val) : Prop :=
  match v with
  | Undefined | Null | Str _ => True
  | _ => False
  end.

(** All [s] with [replace "-" " " s = t], computed from [t]. *)
Fixpoint hyphen_preimages (t : string) : list string :=
  match t with
  | EmptyString => [EmptyString]
  | String c r =>
      (if Ascii.eqb c " " then [String "-" r] else []) ++
      (if Ascii.eqb c "-" then [] else map (String c) (hyphen_preimages r))
  end.

(** ** index.tsx: the control *)

(** Effects of the interaction handlers: they run the caller's callback,
    which acts on a state [W] of the caller's (it may also throw). *)
Definition Eff (W A : Type) : Type := W -> completion (A * W).

Definition ret {W A : Type} (a : A) : Eff W A := fun w => Normal (a, w).

Definition lift {W A : Type} (c : completion A) : Eff W A :=
  fun w => match c with
           | Normal a => Normal (a, w)
           | Throw e => Throw e
           end.

Definition ebind {W A B : Type} (m : Eff W A) (k : A -> Eff W B) : Eff W B :=
  fun w => match m w with
           | Normal (a, w') => k a w'
           | Throw e => Throw e
           end.

Notation "x <~ m ;; k" := (ebind m (fun x => k))
  (at level 61, m at next level, right associativity).

(** The props the control reads; an omitted prop is [Undefined] (for the
    callback, [None]). *)
Record Props (W : Type) : Type := mkProps {
  defaultValue : val;
  value : val;
  onChange : option (val -> Eff W unit)
}.
Arguments mkProps {W} _ _ _.
Arguments defaultValue {W} _.
Arguments value {W} _.
Arguments onChange {W} _.

(** The options handed to [useCompositeStore]. *)
Record CompositeStoreProps (W : Type) : Type := mkStoreProps {
  defaultActiveId : val;
  activeId : val;
  setActiveId : val -> Eff W unit
}.
Arguments mkStoreProps {W} _ _ _.
Arguments defaultActiveId {W} _.
Arguments activeId {W} _.
Arguments setActiveId {W} _.

(** [nextActiveId => { const nextValue = getItemValue(baseId, nextActiveId);
    nextValue && onChange?.(nextValue) }] *)
Definition setActiveId_handler {W : Type} (baseId : string)
    (onChange : option (val -> Eff W unit)) (nextActiveId : val) : Eff W unit :=
  nextValue <~ lift (getItemValue baseId nextActiveId) ;;
  if truthy nextValue then
    match onChange with
    | Some f => f nextValue
    | None => ret tt
    end
  else ret tt.

(** The object literal passed to the store; [baseId] is the result of
    [useInstanceId], [defaultValue] falls back to "center center" when the
    prop is [undefined]. *)
Definition compositeStoreProps {W : Type} (baseId : string) (props : Props W)
  : completion (CompositeStoreProps W) :=
  let defaultValue := default_param (Str "center center") (defaultValue props) in
  d <- getItemId baseId defaultValue ;;
  a <- getItemId baseId (value props) ;;
  Normal (mkStoreProps d a (setActiveId_handler baseId (onChange props))).

(** What a rendered cell receives. *)
Record CellProps : Type := mkCell {
  cell_id : val;
  isActive : bool;
  cell_value : string
}.

Fixpoint mapM {A B : Type} (f : A -> completion B) (l : list A)
  : completion (list B) :=
  match l with
  | [] => Normal []
  | x :: r => y <- f x ;; ys <- mapM f r ;; Normal (y :: ys)
  end.

(** [cell => { const cellId = getItemId(baseId, cell),
    isActive = cellId === activeId; ... }] *)
Definition render_cell (baseId : string) (activeId : val) (cell : string)
  : completion CellProps :=
  cellId <- getItemId baseId (Str cell) ;;
  Normal (mkCell cellId (strict_eq cellId activeId) cell).

(** [GRID.map(cells => cells.map(cell => ...))] *)
Definition render_grid (baseId : string) (activeId : val)
  : completion (list (list CellProps)) :=
  mapM (mapM (render_cell baseId activeId)) GRID.

Definition active_cells (rows : list (list CellProps)) : list CellProps :=
  filter isActive (concat rows).

(** Modelled from the spec: the composite store of the widget library
    ([useCompositeStore], a dependency that is not part of the sources).
    It holds one active identifier.  It starts from the [activeId] option
    when that is supplied and from [defaultActiveId] otherwise; activating
    an item runs the [setActiveId] option on the item's id and, only when no
    [activeId] option is supplied (uncontrolled mode), moves the active
    identifier to that id. *)
Record CompositeStore (W : Type) : Type := mkStore {
  store_props : CompositeStoreProps W;
  store_activeId : val
}.
Arguments mkStore {W} _ _.
Arguments store_props {W} _.
Arguments store_activeId {W} _.

(** Modelled from the spec: the store is in controlled mode when an
    [activeId] option is supplied, that is, when it is not [undefined]. *)
Definition controlled {W : Type} (o : CompositeStoreProps W) : bool :=
  negb (strict_eq (activeId o) Undefined).

(** Modelled from the spec: creation of the store ([useCompositeStore] is
    missing from the sources); the active identifier starts from the
    controlled option, else from the default one. *)
Definition useCompositeStore {W : Type} (o : CompositeStoreProps W)
  : CompositeStore W :=
  mkStore o (if controlled o then activeId o else defaultActiveId o).

(** Modelled from the spec: activation of an item by the user (the store's
    own transition is missing from the sources); the [setActiveId] option
    runs first, the active identifier is written afterwards and only in
    uncontrolled mode. *)
Definition activate {W : Type} (st : CompositeStore W) (item : val)
  : Eff W (CompositeStore W) :=
  _ <~ setActiveId (store_props st) item ;;
  ret (if controlled (store_props st) then st
       else mkStore (store_props st) item).

(** The store the control creates on its first render. *)
Definition AlignmentMatrixControl_store {W : Type} (baseId : string)
    (props : Props W) : completion (CompositeStore W) :=
  o <- compositeStoreProps baseId props ;;
  Normal (useCompositeStore o).

(** A callback that records the argument of each call, oldest first. *)
Definition recording : val -> Eff (list val) unit :=
  fun v calls => Normal (tt, (calls ++ [v])%list).

(** The id the control gives to the cell of a canonical value. *)
Definition cell_id_of (baseId cell : string) : string :=
  baseId ++ "-" ++ replace " " "-" cell.

(** The props every rendered cell of a canonical value ends up with. *)
Definition cell_of (baseId : string) (activeId : val) (cell : string) : CellProps :=
  mkCell (Str (cell_id_of baseId cell))
         (strict_eq (Str (cell_id_of baseId cell)) activeId) cell.

(** Successive activations, as the store delivers them to the handler. *)
Fixpoint activations {W : Type} (baseId : string)
    (onChange : option (val -> Eff W unit)) (ids : list val) : Eff W unit :=
  match ids with
  | [] => ret tt
  | id :: rest =>
      _ <~ setActiveId_handler baseId onChange id ;;
      activations baseId onChange rest
  end.

(** The values the activated ids decode to, in order; an id that does not
    decode contributes nothing. *)
Definition decoded (baseId : string) (ids : list val) : list val :=
  flat_map (fun id => match getItemValue baseId id with
                      | Normal (Str c) => [Str c]
                      | _ => []
                      end) ids.

(** ** icon.tsx *)

(** [arr.map((x, index) => f(x, index))] *)
Fixpoint map_index_from {A B : Type} (i : Z) (f : A -> Z -> B) (l : list A)
  : list B :=
  match l with
  | [] => []
  | x :: r => f x i :: map_index_from (i + 1)%Z f r
  end.

Definition map_index {A B : Type} (f : A -> Z -> B) (l : list A) : list B :=
  map_index_from 0%Z f l.

(** A point of the icon: its React key and its [isActive] prop. *)
Record PointProps : Type := mkPoint {
  point_key : string;
  point_isActive : bool
}.

(** The children of [AlignmentMatrixControlIcon({ value = "center", ... })]:
    [alignIndex = getAlignmentIndex(value)], then one point per alignment
    with [isActive = alignIndex === index].  The class name and the scale
    of the root element do not bear on the points and are left out. *)
Definition AlignmentMatrixControlIcon (value : val) : completion (list PointProps) :=
  let value := default_param (Str "center") value in
  alignIndex <- getAlignmentIndex value ;;
  Normal (map_index
            (fun align index => mkPoint align (strict_eq alignIndex (Num index)))
            ALIGNMENTS).

(** ** stories/index.story.tsx *)

(** [Template = ({ defaultValue, onChange, ...props }) => { const [value,
    setValue] = useState(); ... }]: the story keeps [value] in its own
    state, next to the state [S] its [onChange] argument acts on. *)
Definition Template_onChange {S : Type} (onChange : option (val -> Eff S unit))
  : val -> Eff (val * S) unit :=
  fun changeArg w =>
    (* setValue(...changeArgs) *)
    let s := snd w in
    (* onChange?.(...changeArgs) *)
    match onChange with
    | Some f =>
        match f changeArg s with
        | Normal (_, s') => Normal (tt, (changeArg, s'))
        | Throw e => Throw e
        end
    | None => Normal (tt, (changeArg, s))
    end.

(** The props the story passes on: [defaultValue] is taken out of the
    arguments and not forwarded, [value] is the story's state. *)
Definition Template_props {S : Type} (defaultValue : val)
    (onChange : option (val -> Eff S unit)) (value : val) : Props (val * S) :=
  mkProps Undefined value (Some (Template_onChange onChange)).

(** ** utils/values.js *)

(** [null != value] *)
Definition isValueDefined (value : val) : bool :=
  match value with
  | Undefined | Null => false
  | _ => true
  end.

Definition isValueEmpty (value : val) : bool :=
  let isEmptyString := strict_eq (Str "") value in
  negb (isValueDefined value) || isEmptyString.

(** [arr.find(f)]: the first element satisfying [f], or [undefined]. *)
Fixpoint array_find (f : val -> bool) (arr : list val) : val :=
  match arr with
  | [] => Undefined
  | x :: r => if f x then x else array_find f r
  end.

(** [getDefinedValue(values = [], fallbackValue)]; [None] is an omitted
    first argument. *)
Definition getDefinedValue (values : option (list val)) (fallbackValue : val) : val :=
  let values := match values with None => [] | Some arr => arr end in
  let _values_find := array_find isValueDefined values in
  if negb (strict_eq Null _values_find) && negb (strict_eq Undefined _values_find)
  then _values_find else fallbackValue.

(** ** h-stack/hook.tsx *)

(** Plain objects: own enumerable properties in insertion order. *)
Definition obj : Type := list (string * val).

Fixpoint obj_has (o : obj) (k : string) : bool :=
  match o with
  | [] => false
  | (k', _) :: r => String.eqb k' k || obj_has r k
  end.

(** [o[k]] for an own property, [undefined] without one. *)
Fixpoint obj_get (o : obj) (k : string) : val :=
  match o with
  | [] => Undefined
  | (k', v) :: r => if String.eqb k' k then v else obj_get r k
  end.

(** Definition of [k] on [o]: an existing property keeps its place. *)
Fixpoint obj_set (k : string) (v : val) (o : obj) : obj :=
  match o with
  | [] => [(k, v)]
  | (k', v') :: r => if String.eqb k' k then (k, v) :: r
                     else (k', v') :: obj_set k v r
  end.

(** [{ ...target, ...source }] *)
Definition obj_spread (target source : obj) : obj :=
  fold_left (fun o kv => obj_set (fst kv) (snd kv) o) source target.

(** The rest of a destructuring that takes [keys] out. *)
Definition obj_rest (keys : list string) (o : obj) : obj :=
  filter (fun kv => negb (existsb (String.eqb (fst kv)) keys)) o.

Definition H_ALIGNMENTS : list (string * obj) :=
  [ ("bottom", [("align", Str "flex-end"); ("justify", Str "center")]);
    ("bottomLeft", [("align", Str "flex-end"); ("justify", Str "flex-start")]);
    ("bottomRight", [("align", Str "flex-end"); ("justify", Str "flex-end")]);
    ("center", [("align", Str "center"); ("justify", Str "center")]);
    ("edge", [("align", Str "center"); ("justify", Str "space-between")]);
    ("left", [("align", Str "center"); ("justify", Str "flex-start")]);
    ("right", [("align", Str "center"); ("justify", Str "flex-end")]);
    ("stretch", [("align", Str "stretch")]);
    ("top", [("align", Str "flex-start"); ("justify", Str "center")]);
    ("topLeft", [("align", Str "flex-start"); ("justify", Str "flex-start")]);
    ("topRight", [("align", Str "flex-start"); ("justify", Str "flex-end")]) ].

Definition V_ALIGNMENTS : list (string * obj) :=
  [ ("bottom", [("justify", Str "flex-end"); ("align", Str "center")]);
    ("bottomLeft", [("justify", Str "flex-end"); ("align", Str "flex-start")]);
    ("bottomRight", [("justify", Str "flex-end"); ("align", Str "flex-end")]);
    ("center", [("justify", Str "center"); ("align", Str "center")]);
    ("edge", [("justify", Str "space-between"); ("align", Str "center")]);
    ("left", [("justify", Str "center"); ("align", Str "flex-start")]);
    ("right", [("justify", Str "center"); ("align", Str "flex-end")]);
    ("stretch", [("align", Str "stretch")]);
    ("top", [("justify", Str "flex-start"); ("align", Str "center")]);
    ("topLeft", [("justify", Str "flex-start"); ("align", Str "flex-start")]);
    ("topRight", [("justify", Str "flex-start"); ("align", Str "flex-end")]) ].

Fixpoint table_get (t : list (string * obj)) (k : string) : option obj :=
  match t with
  | [] => None
  | (k', o) :: r => if String.eqb k' k then Some o else table_get r k
  end.

(** What [getAlignmentProps] returns: an object, or, when the alignment
    names a property that the table only inherits from [Object.prototype],
    that inherited member. *)
Inductive alignment_props : Type :=
| Props_object (o : obj)
| Inherited_member (k : string).

(** [getAlignmentProps(alignment, direction = "row")].  [inherited] tells
    which names [Object.prototype] carries: [alignment in props] is true
    for those as well.  A number or a boolean is looked up under its
    numeral or under true/false, which is neither a key of the tables nor
    such a name. *)
Definition getAlignmentProps (inherited : string -> bool)
    (alignment direction : val) : alignment_props :=
  let direction := default_param (Str "row") direction in
  if negb (isValueDefined alignment) then Props_object []
  else
    let props :=
      if strict_eq (Str "column") direction then V_ALIGNMENTS else H_ALIGNMENTS in
    match alignment with
    | Str k =>
        match table_get props k with
        | Some o => Props_object o
        | None => if inherited k then Inherited_member k
                  else Props_object [("align", alignment)]
        end
    | _ => Props_object [("align", alignment)]
    end.

(** The properties that follow [children] in the object literal of
    [useHStack]: [direction, justify: "center", ...align, ...otherProps,
    gap: spacing].  [props] carries the primitive-valued properties of what
    [useContextSystem] returned.  Spreading an inherited member (a function
    or [Object.prototype] itself) adds no property. *)
Definition propsForFlex_after_children (inherited : string -> bool) (props : obj)
  : obj :=
  let alignment := default_param (Str "edge") (obj_get props "alignment") in
  let direction := obj_get props "direction" in
  let spacing := default_param (Num 2) (obj_get props "spacing") in
  let otherProps :=
    obj_rest ["alignment"; "children"; "direction"; "spacing"] props in
  let align :=
    match getAlignmentProps inherited alignment direction with
    | Props_object o => o
    | Inherited_member _ => []
    end in
  obj_set "gap" spacing
    (obj_spread
       (obj_spread [("direction", direction); ("justify", Str "center")] align)
       otherProps).

(** What [useHStack] and [getValidChildren] take from React and from the
    context system, none of it part of the sources: the entries of a
    children array, [Children.toArray], [isValidElement], [hasNamespace],
    the [key] of a child, and the element
    [jsx(FlexItem, { isBlock: true, ...child.props }, key)]. *)
Record React : Type := mkReact {
  ReactNode : Type;
  child : Type;
  string_child : string -> child;
  Children_toArray : ReactNode -> list child;
  isValidElement : child -> bool;
  hasNamespace : child -> list string -> bool;
  child_key : child -> val;
  jsx_FlexItem_isBlock : child -> val -> child
}.

(** A [children] prop: a string, or any other React node. *)
Inductive children_prop (R : React) : Type :=
| Children_string (s : string)
| Children_node (n : ReactNode R).
Arguments Children_string {R} s.
Arguments Children_node {R} n.

(** utils/get-valid-children.ts *)
Definition getValidChildren (R : React) (children : children_prop R)
  : list (child R) :=
  match children with
  | Children_string s => [string_child R s]
  | Children_node n => filter (isValidElement R) (Children_toArray R n)
  end.

(** The callback [useHStack] maps over the valid children: a child in the
    "Spacer" namespace is wrapped in a block [FlexItem] under its own key,
    or under [hstack-<index>] when it has none. *)
Definition hstack_child (R : React) (c : child R) (index : Z) : child R :=
  if hasNamespace R c ["Spacer"] then
    let _key :=
      if truthy (child_key R c) then child_key R c
      else Str ("hstack-" ++ NilZero.string_of_int (Z.to_int index)) in
    jsx_FlexItem_isBlock R c _key
  else c.

(** Values of the properties of [propsForFlex]: a primitive, or the array
    of children. *)
Inductive flex_value (R : React) : Type :=
| Prim (v : val)
| Children_array (l : list (child R)).
Arguments Prim {R} v.
Arguments Children_array {R} l.

Definition flex_obj (R : React) : Type := list (string * flex_value R).

(** [o[k]] for an own property of [o], when there is one. *)
Fixpoint flex_get {R : React} (o : flex_obj R) (k : string)
  : option (flex_value R) :=
  match o with
  | [] => None
  | (k', v) :: r => if String.eqb k' k then Some v else flex_get r k
  end.

(** The object [useHStack] hands to [useFlex]:
    [{ children: getValidChildren(children).map(...), direction,
       justify: "center", ...align, ...otherProps, gap: spacing }];
    [children] and [props] are the [children] property and the other
    properties of what [useContextSystem] returned. *)
Definition useHStack_propsForFlex (R : React) (inherited : string -> bool)
    (props : obj) (children : children_prop R) : flex_obj R :=
  ("children",
   Children_array (map_index (hstack_child R) (getValidChildren R children)))
  :: map (fun kv => (fst kv, Prim (snd kv)))
         (propsForFlex_after_children inherited props).

(** An instance for examples: children are strings, all but "text" are
    valid elements, a child is in the namespaces that list its own name, no
    child has a key, and a wrapped child is written [FlexItem:<key>]. *)
Definition React_of_strings : React :=
  mkReact (list string) string
    (fun s => s)
    (fun l => l)
    (fun c => negb (String.eqb c "text"))
    (fun c namespaces => existsb (String.eqb c) namespaces)
    (fun _ => Null)
    (fun _ key => match key with
                  | Str k => "FlexItem:" ++ k
                  | _ => "FlexItem"
                  end).

(** ** block-settings-dropdown *)

(** [updateSelectionAfterRemove]: with a [__experimentalSelectBlock]
    callback, the closure over the previous, next and selected blocks and
    the first block of the menu; without one, [noop]. *)
Definition updateSelectionAfterRemove {W : Type}
    (__experimentalSelectBlock : option (val -> Eff W unit))
    (previousBlockClientId nextBlockClientId : val)
    (selectedBlockClientIds : list string) (firstBlockClientId : val)
  : Eff W unit :=
  match __experimentalSelectBlock with
  | Some select =>
      let blockToSelect :=
        if truthy previousBlockClientId then previousBlockClientId
        else nextBlockClientId in
      if truthy blockToSelect
         && includes selectedBlockClientIds firstBlockClientId
         && negb (includes selectedBlockClientIds blockToSelect)
      then select blockToSelect
      else ret tt
  | None => ret tt
  end.

(** Whether the character [ch] occurs in [s]. *)
Fixpoint has_char (ch : ascii) (s : string) : bool :=
  match s with
  | EmptyString => false
  | String c r => Ascii.eqb c ch || has_char ch r
  end.

(** Whether [t] is a suffix of [s]. *)
Fixpoint is_suffix (t s : string) : bool :=
  String.eqb t s ||
  match s with
  | EmptyString => false
  | String _ r => is_suffix t r
  end.

(** ** Properties of the JavaScript fragment *)

Lemma replace_unfold pat rep s :
  replace pat rep s =
  if String.prefix pat s then rep ++ drop (String.length pat) s
  else match s with
       | EmptyString => EmptyString
       | String c r => String c (replace pat rep r)
       end.
Proof. destruct s; reflexivity. Qed.

Lemma prefix_empty s : String.prefix "" s = true.
Proof. destruct s; reflexivity. Qed.

Lemma prefix_cons a p b s :
  String.prefix (String a p) (String b s) =
  if ascii_dec a b then String.prefix p s else false.
Proof. reflexivity. Qed.

Lemma prefix_append p t : String.prefix p (p ++ t) = true.
Proof.
  induction p as [|a p IH]; simpl.
  - apply prefix_empty.
  - destruct (ascii_dec a a) as [_|n]; [exact IH | contradiction n; reflexivity].
Qed.

Lemma drop_append p t : drop (String.length p) (p ++ t) = t.
Proof. induction p as [|a p IH]; simpl; [destruct t; reflexivity | exact IH]. Qed.

(** A leading occurrence of the pattern is the leftmost one. *)
Lemma replace_leading pat rep t : replace pat rep (pat ++ t) = rep ++ t.
Proof. now rewrite replace_unfold, prefix_append, drop_append. Qed.

Lemma append_assoc3 p h : (p ++ "-") ++ h = p ++ "-" ++ h.
Proof. induction p as [|a p IH]; simpl; [reflexivity | now rewrite IH]. Qed.

Lemma append_cancel_l p s t : p ++ s = p ++ t -> s = t.
Proof. induction p as [|a p IH]; simpl; intros H; [exact H | injection H; auto]. Qed.

Lemma replace_hyphen_step c r :
  replace "-" " " (String c r) =
  if Ascii.eqb c "-" then String " " r else String c (replace "-" " " r).
Proof.
  rewrite replace_unfold, prefix_cons, prefix_empty.
  destruct (ascii_dec "-" c) as [e|n]; destruct (Ascii.eqb_spec c "-") as [e'|n'];
    try congruence; reflexivity.
Qed.

Lemma replace_hyphen_empty : replace "-" " " "" = "".
Proof. reflexivity. Qed.

(** [hyphen_preimages] is exact. *)
Lemma hyphen_preimages_spec t : forall s,
  replace "-" " " s = t <-> In s (hyphen_preimages t).
Proof.
  induction t as [|c r IH]; intros [|a s].
  - simpl. intuition.
  - rewrite replace_hyphen_step. simpl.
    destruct (Ascii.eqb a "-"); split; intros H;
      try discriminate; destruct H as [H|[]]; discriminate.
  - rewrite replace_hyphen_empty. cbn [hyphen_preimages]. split; [discriminate|].
    rewrite in_app_iff. intros [H|H].
    + destruct (Ascii.eqb c " "); [destruct H as [H|[]]; discriminate | destruct H].
    + destruct (Ascii.eqb c "-"); [destruct H|].
      apply in_map_iff in H. destruct H as (x & Hx & _). discriminate.
  - rewrite replace_hyphen_step. cbn [hyphen_preimages]. rewrite in_app_iff.
    destruct (Ascii.eqb_spec a "-") as [->|Ha].
    + split.
      * intros H. injection H as <- <-. left. simpl. now left.
      * intros [H|H].
        -- destruct (Ascii.eqb_spec c " ") as [->|Hc]; [|destruct H].
           destruct H as [H|[]]. now injection H as <-.
        -- destruct (Ascii.eqb_spec c "-") as [->|Hc]; [destruct H|].
           apply in_map_iff in H. destruct H as (x & Hx & _).
           injection Hx as Hc' _. contradiction.
    + split.
      * intros H. injection H as <- H. right.
        destruct (Ascii.eqb_spec a "-") as [|_]; [contradiction|].
        apply in_map. now apply IH.
      * intros [H|H].
        -- destruct (Ascii.eqb c " "); [|destruct H].
           destruct H as [H|[]]. injection H as H _. now symmetry in H.
        -- destruct (Ascii.eqb c "-"); [destruct H|].
           apply in_map_iff in H. destruct H as (x & Hx & Hin).
           injection Hx as <- <-. f_equal. now apply IH.
Qed.

(** ** Properties of [normalize] *)

Lemma normalize_Str s :
  normalize (Str s) =
  let t := replace "-" " " (if String.eqb "center" s then "center center" else s) in
  Normal (if includes ALIGNMENTS (Str t) then Str t else Undefined).
Proof.
  unfold normalize. cbn [strict_eq]. destruct (String.eqb "center" s); reflexivity.
Qed.

Lemma includes_In arr t : includes arr (Str t) = true <-> In t arr.
Proof.
  unfold includes. rewrite existsb_exists. split.
  - intros (x & Hx & He). cbn in He. apply String.eqb_eq in He. now subst.
  - intros H. exists t. split; [exact H|]. cbn. apply String.eqb_refl.
Qed.

Lemma In_ALIGNMENTS c :
  In c ALIGNMENTS <->
  c = "top left" \/ c = "top center" \/ c = "top right" \/
  c = "center left" \/ c = "center center" \/ c = "center right" \/
  c = "bottom left" \/ c = "bottom center" \/ c = "bottom right".
Proof. cbn. intuition congruence. Qed.

(** On a string, [normalize] returns [undefined] or a canonical value. *)
Lemma normalize_Str_cases s :
  normalize (Str s) = Normal Undefined \/
  exists c, In c ALIGNMENTS /\ normalize (Str s) = Normal (Str c).
Proof.
  rewrite normalize_Str. cbv zeta.
  destruct (includes ALIGNMENTS (Str _)) eqn:E.
  - right. eexists. split; [|reflexivity]. now apply includes_In.
  - now left.
Qed.

Lemma normalize_canonical c : In c ALIGNMENTS -> normalize (Str c) = Normal (Str c).
Proof.
  rewrite In_ALIGNMENTS. intros H.
  repeat (destruct H as [->|H]; [reflexivity|]). subst. reflexivity.
Qed.

Lemma normalize_hyphenated c :
  In c ALIGNMENTS -> normalize (Str (replace " " "-" c)) = Normal (Str c).
Proof.
  rewrite In_ALIGNMENTS. intros H.
  repeat (destruct H as [->|H]; [reflexivity|]). subst. reflexivity.
Qed.

(** The strings [normalize] accepts, and what it returns on them. *)
Lemma normalize_Str_iff s c :
  normalize (Str s) = Normal (Str c) <->
  In c ALIGNMENTS /\
  (s = c \/ s = replace " " "-" c \/ (s = "center" /\ c = "center center")).
Proof.
  split.
  - rewrite normalize_Str. cbv zeta.
    remember (replace "-" " " _) as t eqn:Ht.
    destruct (includes ALIGNMENTS (Str t)) eqn:E; [|discriminate].
    intros H. injection H as ->. apply includes_In in E.
    split; [exact E|].
    symmetry in Ht. apply hyphen_preimages_spec in Ht. rename Ht into H.
    destruct (String.eqb_spec "center" s) as [<-|Hs].
    + apply In_ALIGNMENTS in E.
      repeat (destruct E as [->|E];
              [cbn in H; intuition (try discriminate; auto)|]).
      subst. cbn in H; intuition (try discriminate; auto).
    + apply In_ALIGNMENTS in E.
      repeat (destruct E as [->|E]; [cbn in H; cbn; intuition auto|]).
      subst. cbn in H; cbn; intuition auto.
  - intros (Hc & [->|[->|[-> ->]]]).
    + now apply normalize_canonical.
    + now apply normalize_hyphenated.
    + reflexivity.
Qed.

Lemma normalize_nullish v : v = Undefined \/ v = Null -> normalize v = Normal Undefined.
Proof. intros [->| ->]; reflexivity. Qed.

Lemma normalize_non_string v :
  ~ string_or_nullish v -> normalize v = Throw TypeError.
Proof. destruct v; cbn; intros H; try reflexivity; exfalso; now apply H. Qed.

(** Whatever the argument, a string returned by [normalize] is canonical. *)
Lemma normalize_result v c : normalize v = Normal (Str c) -> In c ALIGNMENTS.
Proof.
  destruct v as [| |s|n|b]; try discriminate.
  intros H. now apply normalize_Str_iff in H.
Qed.

Lemma normalize_total v :
  string_or_nullish v ->
  normalize v = Normal Undefined \/
  exists c, In c ALIGNMENTS /\ normalize v = Normal (Str c).
Proof.
  destruct v as [| |s|n|b]; cbn; intros H; try contradiction.
  - now left.
  - now left.
  - apply normalize_Str_cases.
Qed.

Lemma truthy_canonical c : In c ALIGNMENTS -> truthy (Str c) = true.
Proof.
  rewrite In_ALIGNMENTS. intros H.
  repeat (destruct H as [->|H]; [reflexivity|]). subst. reflexivity.
Qed.

(** ** Properties of the identifier codec *)

Lemma getItemId_valid p v c :
  normalize v = Normal (Str c) ->
  getItemId p v = Normal (Str (p ++ "-" ++ replace " " "-" c)).
Proof.
  intros H. unfold getItemId. rewrite H. cbn [bind].
  rewrite (truthy_canonical c (normalize_result _ _ H)). reflexivity.
Qed.

Lemma getItemId_invalid p v :
  normalize v = Normal Undefined -> getItemId p v = Normal Undefined.
Proof. intros H. unfold getItemId. now rewrite H. Qed.

Lemma getItemId_throw p v e :
  normalize v = Throw e -> getItemId p v = Throw e.
Proof. intros H. unfold getItemId. now rewrite H. Qed.

Lemma getItemValue_Str p s :
  getItemValue p (Str s) = normalize (Str (replace (p ++ "-") "" s)).
Proof. reflexivity. Qed.

Lemma getItemValue_nullish p id :
  id = Undefined \/ id = Null -> getItemValue p id = Normal Undefined.
Proof. intros [->| ->]; reflexivity. Qed.

(** Decoding an id that begins with [prefix-] normalises what follows. *)
Lemma getItemValue_leading_occurrence p t :
  getItemValue p (Str (p ++ "-" ++ t)) = normalize (Str t).
Proof. now rewrite getItemValue_Str, <- append_assoc3, replace_leading. Qed.

(** Decoding undoes encoding on every argument, up to [normalize]; on a
    non-string argument both sides throw. *)
Lemma roundtrip_any p v :
  (id <- getItemId p v ;; getItemValue p id) = normalize v.
Proof.
  destruct (normalize v) as [[| |c|n|b]|e] eqn:H.
  - now rewrite (getItemId_invalid _ _ H).
  - destruct v as [| |s| |]; try discriminate.
    destruct (normalize_Str_cases s) as [E|(c & _ & E)]; congruence.
  - rewrite (getItemId_valid _ _ _ H). cbn [bind].
    rewrite getItemValue_leading_occurrence.
    apply normalize_hyphenated. now apply normalize_result in H.
  - destruct v as [| |s| |]; try discriminate.
    destruct (normalize_Str_cases s) as [E|(c & _ & E)]; congruence.
  - destruct v as [| |s| |]; try discriminate.
    destruct (normalize_Str_cases s) as [E|(c & _ & E)]; congruence.
  - now rewrite (getItemId_throw _ _ _ H).
Qed.

(** ** Claims on the normaliser and the codec *)

(** C8: each of the nine canonical (space-separated) alignment values is a
    fixed point of [normalize]; [ALIGNMENTS] lists exactly these nine. *)
Theorem normalize_fixed_points (v : string) :
  In v ALIGNMENTS ->
  normalize (Str v) = Normal (Str v) /\ List.length ALIGNMENTS = 9%nat.
Proof. intros H. split; [now apply normalize_canonical | reflexivity]. Qed.

Lemma normalize_fixed_points_witness :
  In "bottom right" ALIGNMENTS /\
  normalize (Str "bottom right") = Normal (Str "bottom right").
Proof.
  assert (H : In "bottom right" ALIGNMENTS) by (cbn; tauto).
  split; [exact H | exact (proj1 (normalize_fixed_points "bottom right" H))].
Defined.

(** C2: on every string, [normalize] first maps the shorthand "center" to
    "center center", then replaces the first hyphen by a space, then tests
    membership in the nine values and returns that canonical form or
    [undefined]; it never throws.  Written out: it returns a canonical
    value exactly on the nineteen spellings listed below (each of the nine
    values, each with its space written as a hyphen, and "center"), and
    [undefined] on every other string, such as the empty one, an unknown
    token, a differently cased one or one with a second hyphen; no case
    normalisation is done. *)
Theorem normalize_contract (s : string) :
  (forall c, normalize (Str s) = Normal (Str c) <->
     In (s, c)
       [ ("top left", "top left");
         ("top-left", "top left");
         ("top center", "top center");
         ("top-center", "top center");
         ("top right", "top right");
         ("top-right", "top right");
         ("center left", "center left");
         ("center-left", "center left");
         ("center center", "center center");
         ("center-center", "center center");
         ("center", "center center");
         ("center right", "center right");
         ("center-right", "center right");
         ("bottom left", "bottom left");
         ("bottom-left", "bottom left");
         ("bottom center", "bottom center");
         ("bottom-center", "bottom center");
         ("bottom right", "bottom right");
         ("bottom-right", "bottom right") ]) /\
  (normalize (Str s) = Normal Undefined \/
   exists c, normalize (Str s) = Normal (Str c)) /\
  normalize (Str "center") = Normal (Str "center center") /\
  normalize (Str "bottom-left") = Normal (Str "bottom left") /\
  normalize (Str "bottom left") = Normal (Str "bottom left") /\
  normalize (Str s) =
    (let shorthand := if String.eqb "center" s then "center center" else s in
     let transformed := replace "-" " " shorthand in
     Normal (if includes ALIGNMENTS (Str transformed)
             then Str transformed else Undefined)) /\
  (forall c, normalize (Str s) = Normal (Str c) <->
     In c ALIGNMENTS /\
     (s = c \/ s = replace " " "-" c \/ (s = "center" /\ c = "center center"))) /\
  ((forall c, In c ALIGNMENTS ->
      s <> c /\ s <> replace " " "-" c /\ ~ (s = "center" /\ c = "center center")) ->
   normalize (Str s) = Normal Undefined) /\
  normalize (Str "") = Normal Undefined /\
  normalize (Str "diagonal") = Normal Undefined /\
  normalize (Str "Top Left") = Normal Undefined /\
  normalize (Str "CENTER") = Normal Undefined /\
  normalize (Str "top-left-") = Normal Undefined.
Proof.
  split.
  { intros c. split.
    - intros H. apply normalize_Str_iff in H. destruct H as (Hc & Hs).
      apply In_ALIGNMENTS in Hc.
      repeat (destruct Hc as [->|Hc];
              [destruct Hs as [->|[->|[-> E]]];
               [cbn; auto 25 | cbn; auto 25
               | first [discriminate E | cbn; auto 25]]|]).
      subst c. destruct Hs as [->|[->|[-> E]]];
        [cbn; auto 25 | cbn; auto 25 | discriminate E].
    - cbn [In]. intros H.
      repeat (destruct H as [E|H]; [injection E as <- <-; reflexivity|]).
      destruct H. }
  split.
  { destruct (normalize_Str_cases s) as [E|(c & _ & E)];
      [now left | right; now exists c]. }
  split; [reflexivity|]. split; [reflexivity|]. split; [reflexivity|].
  split; [apply normalize_Str|].
  split; [intros c; apply normalize_Str_iff|].
  split; [|repeat split; reflexivity].
  intros Hno. destruct (normalize_Str_cases s) as [E|(c & Hc & E)]; [exact E|].
  exfalso. apply normalize_Str_iff in E. destruct E as (_ & E).
  destruct (Hno c Hc) as (H1 & H2 & H3). tauto.
Qed.

(** C1: round trip.  For every non-empty prefix [p] and every valid
    alignment value [v] (one that [normalize] accepts), decoding the id
    generated for [v] gives back [normalize v]. *)
Theorem getItemValue_getItemId_roundtrip (p v c : string) :
  p <> "" ->
  normalize (Str v) = Normal (Str c) ->
  exists id,
    getItemId p (Str v) = Normal (Str id) /\
    getItemValue p (Str id) = normalize (Str v).
Proof.
  intros _ H. exists (p ++ "-" ++ replace " " "-" c). split.
  - now apply getItemId_valid.
  - pose proof (roundtrip_any p (Str v)) as R.
    rewrite (getItemId_valid _ _ _ H) in R. exact R.
Qed.

Lemma getItemValue_getItemId_roundtrip_witness :
  getItemId "abc" (Str "top left") = Normal (Str "abc-top-left") /\
  getItemValue "abc" (Str "abc-top-left") = Normal (Str "top left").
Proof.
  assert (Hp : "abc" <> "") by discriminate.
  assert (Hv : normalize (Str "top left") = Normal (Str "top left")) by reflexivity.
  destruct (getItemValue_getItemId_roundtrip "abc" "top left" "top left" Hp Hv)
    as (id & Hid & Hval).
  injection Hid as <-. split; [reflexivity | exact Hval].
Defined.

Lemma prefix_true p : forall s,
  String.prefix p s = true -> s = p ++ drop (String.length p) s.
Proof.
  induction p as [|a p IH]; intros [|b s]; try reflexivity; try discriminate.
  rewrite prefix_cons. destruct (ascii_dec a b) as [->|]; [|discriminate].
  intros H. cbn. f_equal. now apply IH.
Qed.

(** Without an occurrence of the pattern, [replace] returns its argument. *)
Lemma replace_absent pat rep s :
  (forall a b, s <> a ++ pat ++ b) -> replace pat rep s = s.
Proof.
  induction s as [|c r IH]; intros H; rewrite replace_unfold.
  - destruct (String.prefix pat "") eqn:E; [|reflexivity].
    apply prefix_true in E. exfalso. exact (H "" _ E).
  - destruct (String.prefix pat (String c r)) eqn:E.
    + apply prefix_true in E. exfalso. exact (H "" _ E).
    + f_equal. apply IH. intros a b Hr. apply (H (String c a) b).
      cbn. now rewrite Hr.
Qed.

Lemma getItemValue_total p id :
  string_or_nullish id ->
  getItemValue p id = Normal Undefined \/
  exists c, In c ALIGNMENTS /\ getItemValue p id = Normal (Str c).
Proof.
  destruct id as [| |s|n|b]; cbn [string_or_nullish]; intros H; try contradiction.
  - now left.
  - now left.
  - rewrite getItemValue_Str. apply normalize_Str_cases.
Qed.

(** A primitive that is neither a string nor nullish has no [replace]
    method: decoding it throws instead of returning [undefined]. *)
Lemma getItemValue_non_string p id :
  ~ string_or_nullish id -> getItemValue p id = Throw TypeError.
Proof. destruct id; cbn; intros H; try reflexivity; exfalso; now apply H. Qed.

(** The id "top-abc-left" does not begin with "abc-",
    so stripping a leading prefix leaves it whole and it is not canonical;
    [getItemValue] removes the inner "abc-" and decodes it to "top left". *)
Lemma getItemValue_inner_prefix :
  String.prefix "abc-" "top-abc-left" = false /\
  getItemValue_leading "abc" (Str "top-abc-left") = Normal Undefined /\
  getItemValue "abc" (Str "top-abc-left") = Normal (Str "top left").
Proof. repeat split; reflexivity. Qed.

(** C3 (amended): [getItemValue] removes the leftmost occurrence of
    [prefix-] from a string id, wherever it is (the leading one when the id
    begins with it; none when the id does not contain it, and then the
    whole id is kept), normalises the remainder, and returns [undefined]
    unless that is one of the nine canonical values.  For every string id
    and for an absent id ([undefined] or [null]) it returns without
    throwing. *)
Theorem getItemValue_contract (p : string) (id : val) :
  string_or_nullish id ->
  (getItemValue p id = Normal Undefined \/
   exists c, In c ALIGNMENTS /\ getItemValue p id = Normal (Str c)) /\
  (id = Undefined \/ id = Null -> getItemValue p id = Normal Undefined) /\
  (forall s, id = Str s ->
     getItemValue p id = normalize (Str (replace (p ++ "-") "" s)) /\
     (String.prefix (p ++ "-") s = true ->
        replace (p ++ "-") "" s = strip_leading p s /\
        getItemValue p id = getItemValue_leading p id) /\
     ((forall a b, s <> a ++ (p ++ "-") ++ b) ->
        replace (p ++ "-") "" s = s /\
        getItemValue p id = getItemValue_leading p id)).
Proof.
  intros Hid. split; [now apply getItemValue_total|].
  split; [apply getItemValue_nullish|].
  intros s ->. split; [apply getItemValue_Str|]. split.
  - intros E. unfold getItemValue_leading, strip_leading. rewrite E.
    rewrite getItemValue_Str, replace_unfold, E. now split.
  - intros Habs. pose proof (replace_absent _ "" _ Habs) as R.
    split; [exact R|].
    unfold getItemValue_leading, strip_leading.
    destruct (String.prefix (p ++ "-") s) eqn:E.
    + apply prefix_true in E. exfalso. exact (Habs "" _ E).
    + now rewrite getItemValue_Str, R.
Qed.

Lemma getItemValue_contract_witness :
  getItemValue "abc" (Str "abc-top-left") = Normal (Str "top left") /\
  getItemValue "abc" (Str "abc-top-left") =
    getItemValue_leading "abc" (Str "abc-top-left").
Proof.
  pose proof (getItemValue_contract "abc" (Str "abc-top-left") I) as (_ & _ & H).
  destruct (H "abc-top-left" eq_refl) as (Hn & Hlead & _).
  split; [exact Hn | exact (proj2 (Hlead eq_refl))].
Defined.

(** ** Grid index lookup *)

Lemma indexOf_canonical c :
  In c ALIGNMENTS ->
  exists i, (0 <= i <= 8)%Z /\
            nth_error ALIGNMENTS (Z.to_nat i) = Some c /\
            indexOf ALIGNMENTS (Str c) = i.
Proof.
  intros H. exists (indexOf ALIGNMENTS (Str c)). revert H.
  rewrite In_ALIGNMENTS. intros H.
  repeat (destruct H as [->|H];
          [repeat split; try reflexivity; cbv; discriminate|]).
  subst. repeat split; try reflexivity; cbv; discriminate.
Qed.

(** C4: [getAlignmentIndex] normalises its argument, "center" standing in
    for an omitted one, and returns the position of the value in the
    row-major flattening of the 3x3 grid, an integer from 0 to 8; the
    omitted argument and "center" both give 4; an invalid argument gives
    [undefined], and -1 is never returned. *)
Theorem getAlignmentIndex_contract :
  getAlignmentIndex Undefined = Normal (Num 4) /\
  getAlignmentIndex (Str "center") = Normal (Num 4) /\
  (forall r c : nat, (r < 3)%nat -> (c < 3)%nat ->
     getAlignmentIndex (Str (nth c (nth r GRID []) "")) =
     Normal (Num (Z.of_nat (3 * r + c)))) /\
  (forall s c, normalize (Str s) = Normal (Str c) ->
     exists i, (0 <= i <= 8)%Z /\
               nth_error ALIGNMENTS (Z.to_nat i) = Some c /\
               getAlignmentIndex (Str s) = Normal (Num i)) /\
  (forall s, normalize (Str s) = Normal Undefined ->
     getAlignmentIndex (Str s) = Normal Undefined) /\
  getAlignmentIndex Null = Normal Undefined /\
  getAlignmentIndex (Str "invalid") = Normal Undefined /\
  (forall x, getAlignmentIndex x <> Normal (Num (-1))).
Proof.
  split; [reflexivity|]. split; [reflexivity|]. split.
  { intros r c Hr Hc.
    destruct r as [|[|[|r]]]; try lia;
      destruct c as [|[|[|c]]]; try lia; reflexivity. }
  split.
  { intros s c H. pose proof (normalize_result _ _ H) as Hc.
    destruct (indexOf_canonical c Hc) as (i & Hi & Hn & Hx).
    exists i. split; [exact Hi|]. split; [exact Hn|].
    unfold getAlignmentIndex. cbn [default_param]. rewrite H. cbn [bind].
    rewrite (truthy_canonical c Hc). cbn [negb]. rewrite Hx.
    destruct (Z.ltb_spec (-1) i); [reflexivity | lia]. }
  split.
  { intros s H. unfold getAlignmentIndex. cbn [default_param]. now rewrite H. }
  split; [reflexivity|]. split; [reflexivity|].
  intros x. unfold getAlignmentIndex.
  destruct (normalize _) as [n|e]; cbn [bind]; [|discriminate].
  destruct (negb (truthy n)); [discriminate|].
  destruct (Z.ltb_spec (-1) (indexOf ALIGNMENTS n)) as [L|L]; [|discriminate].
  intros E. injection E as E. lia.
Qed.

(** ** The change handler *)

Lemma getItemId_total p v :
  string_or_nullish v ->
  (normalize v = Normal Undefined /\ getItemId p v = Normal Undefined) \/
  (exists c, In c ALIGNMENTS /\ normalize v = Normal (Str c) /\
             getItemId p v = Normal (Str (cell_id_of p c))).
Proof.
  intros H. destruct (normalize_total v H) as [E|(c & Hc & E)].
  - left. split; [exact E | now apply getItemId_invalid].
  - right. exists c. repeat split; try assumption. now apply getItemId_valid.
Qed.

Lemma getItemId_canonical p c :
  In c ALIGNMENTS -> getItemId p (Str c) = Normal (Str (cell_id_of p c)).
Proof. intros H. apply getItemId_valid. now apply normalize_canonical. Qed.

Lemma getItemValue_cell p c :
  In c ALIGNMENTS -> getItemValue p (Str (cell_id_of p c)) = Normal (Str c).
Proof.
  intros H. unfold cell_id_of. rewrite getItemValue_leading_occurrence.
  now apply normalize_hyphenated.
Qed.

Lemma handler_unfold {W : Type} baseId (onChange : option (val -> Eff W unit)) id w :
  setActiveId_handler baseId onChange id w =
  match getItemValue baseId id with
  | Normal nextValue =>
      if truthy nextValue then
        match onChange with Some f => f nextValue w | None => Normal (tt, w) end
      else Normal (tt, w)
  | Throw e => Throw e
  end.
Proof.
  unfold setActiveId_handler, ebind, lift.
  destruct (getItemValue baseId id) as [v|e]; [|reflexivity].
  destruct (truthy v); [destruct onChange|]; reflexivity.
Qed.

(** C5: activating an id that decodes to [undefined] leaves the caller's
    state untouched: [onChange] is not run, nothing is thrown, nothing else
    happens.  [onChange] is run, once and on the decoded canonical value,
    exactly when [getItemValue] of the activated id is defined.  Without an
    [onChange] prop the handler does nothing. *)
Theorem setActiveId_handler_contract
    (W : Type) (baseId : string) (f : val -> Eff W unit)
    (nextActiveId : val) (w : W) :
  string_or_nullish nextActiveId ->
  ((getItemValue baseId nextActiveId = Normal Undefined /\
    setActiveId_handler baseId (Some f) nextActiveId w = Normal (tt, w)) \/
   (exists c, In c ALIGNMENTS /\
      getItemValue baseId nextActiveId = Normal (Str c) /\
      setActiveId_handler baseId (Some f) nextActiveId w = f (Str c) w)) /\
  setActiveId_handler baseId None nextActiveId w = Normal (tt, w).
Proof.
  intros H. rewrite !handler_unfold.
  destruct (getItemValue_total baseId nextActiveId H) as [E|(c & Hc & E)];
    rewrite E.
  - split; [left; now split | reflexivity].
  - rewrite (truthy_canonical c Hc). split; [right; exists c; now repeat split | reflexivity].
Qed.

Lemma setActiveId_handler_contract_witness :
  setActiveId_handler "abc" (Some recording) (Str "abc-diagonal") [] = Normal (tt, []) /\
  setActiveId_handler "abc" (Some recording) (Str "abc-top-left") []
    = Normal (tt, [Str "top left"]).
Proof.
  split.
  - destruct (setActiveId_handler_contract (list val) "abc" recording
                (Str "abc-diagonal") [] I) as ([(_ & H)|(c & _ & E & _)] & _).
    + exact H.
    + discriminate E.
  - destruct (setActiveId_handler_contract (list val) "abc" recording
                (Str "abc-top-left") [] I) as ([(E & _)|(c & _ & E & H)] & _).
    + discriminate E.
    + injection E as <-. exact H.
Defined.

(** ** Rendering of the cells *)

Lemma eqb_append_l p a b : String.eqb (p ++ a) (p ++ b) = String.eqb a b.
Proof.
  induction p as [|c p IH]; cbn; [reflexivity|].
  now rewrite Ascii.eqb_refl.
Qed.

Lemma render_cell_canonical p a c :
  In c ALIGNMENTS -> render_cell p a c = Normal (cell_of p a c).
Proof. intros H. unfold render_cell. now rewrite (getItemId_canonical p c H). Qed.

Lemma mapM_map {A B : Type} (f : A -> completion B) (g : A -> B) l :
  (forall x, In x l -> f x = Normal (g x)) -> mapM f l = Normal (map g l).
Proof.
  induction l as [|x r IH]; intros H; cbn; [reflexivity|].
  rewrite (H x (or_introl eq_refl)). cbn.
  rewrite IH; [reflexivity|]. intros y Hy. apply H. now right.
Qed.

Lemma render_grid_cells p a :
  render_grid p a = Normal (map (map (cell_of p a)) GRID).
Proof.
  unfold render_grid. apply mapM_map. intros row Hrow.
  apply mapM_map. intros c Hc. apply render_cell_canonical.
  unfold ALIGNMENTS. apply in_concat. now exists row.
Qed.

Lemma active_cells_rendered p a :
  active_cells (map (map (cell_of p a)) GRID) =
  map (cell_of p a)
      (filter (fun c => strict_eq (Str (cell_id_of p c)) a) ALIGNMENTS).
Proof.
  unfold active_cells, ALIGNMENTS. now rewrite <- concat_map, filter_map_swap.
Qed.

Lemma filter_none {A : Type} (f : A -> bool) l :
  (forall x, In x l -> f x = false) -> filter f l = [].
Proof.
  induction l as [|x r IH]; intros H; cbn; [reflexivity|].
  rewrite (H x (or_introl eq_refl)). apply IH. intros y Hy. apply H. now right.
Qed.

(** Among items with pairwise distinct keys, at most one has a given key. *)
Lemma filter_key_le1 {A : Type} (key : A -> string) (s : string) l :
  NoDup (map key l) ->
  (List.length (filter (fun x => String.eqb (key x) s) l) <= 1)%nat.
Proof.
  induction l as [|x r IH]; cbn; intros H; [lia|].
  apply NoDup_cons_iff in H. destruct H as (Hx & Hr).
  destruct (String.eqb_spec (key x) s) as [E|E].
  - rewrite filter_none; [cbn; lia|].
    intros y Hy. destruct (String.eqb_spec (key y) s) as [E'|]; [|reflexivity].
    exfalso. apply Hx. rewrite E, <- E'. now apply in_map.
  - now apply IH.
Qed.

Lemma hyphenate_injective c1 c2 :
  In c1 ALIGNMENTS -> In c2 ALIGNMENTS ->
  replace " " "-" c1 = replace " " "-" c2 -> c1 = c2.
Proof.
  rewrite !In_ALIGNMENTS. intros H1 H2.
  repeat (destruct H1 as [->|H1]); subst;
    repeat (destruct H2 as [->|H2]); subst;
    intros E; try reflexivity; discriminate E.
Qed.

Lemma cell_id_of_injective p c1 c2 :
  In c1 ALIGNMENTS -> In c2 ALIGNMENTS ->
  cell_id_of p c1 = cell_id_of p c2 -> c1 = c2.
Proof.
  intros H1 H2 E. unfold cell_id_of in E.
  apply append_cancel_l, append_cancel_l in E.
  now apply hyphenate_injective.
Qed.

Lemma NoDup_ALIGNMENTS : NoDup ALIGNMENTS.
Proof. repeat constructor; cbn; intuition discriminate. Qed.

Lemma NoDup_cell_ids p : NoDup (map (cell_id_of p) ALIGNMENTS).
Proof.
  apply NoDup_map_NoDup_ForallPairs; [|apply NoDup_ALIGNMENTS].
  intros x y Hx Hy. now apply cell_id_of_injective.
Qed.

(** C10: for a fixed prefix, [getItemId] sends distinct canonical values to
    distinct ids; hence, whatever the store's active id is, at most one of
    the nine rendered cells has [isActive] set. *)
Theorem getItemId_injective_one_active (p : string) (activeId : val) :
  (forall v1 v2, In v1 ALIGNMENTS -> In v2 ALIGNMENTS ->
     getItemId p (Str v1) = getItemId p (Str v2) -> v1 = v2) /\
  exists rows,
    render_grid p activeId = Normal rows /\
    map (map cell_value) rows = GRID /\
    (forall cell, In cell (concat rows) ->
       Normal (cell_id cell) = getItemId p (Str (cell_value cell)) /\
       isActive cell = strict_eq (cell_id cell) activeId) /\
    (List.length (active_cells rows) <= 1)%nat.
Proof.
  split.
  - intros v1 v2 H1 H2. rewrite !getItemId_canonical by assumption.
    intros E. injection E as E. now apply (cell_id_of_injective p).
  - exists (map (map (cell_of p activeId)) GRID).
    split; [apply render_grid_cells|]. split; [reflexivity|]. split.
    + intros cell Hcell. rewrite <- concat_map in Hcell.
      apply in_map_iff in Hcell. destruct Hcell as (c & <- & Hc).
      cbn [cell_of cell_id cell_value isActive].
      split; [|reflexivity]. symmetry. now apply getItemId_canonical.
    + rewrite active_cells_rendered, length_map.
      destruct activeId as [| |s|n|b]; try (cbn; lia).
      cbn [strict_eq]. apply filter_key_le1, NoDup_cell_ids.
Qed.

Lemma getItemId_injective_one_active_witness :
  getItemId "abc" (Str "top left") <> getItemId "abc" (Str "top right") /\
  exists rows,
    render_grid "abc" (Str "abc-top-left") = Normal rows /\
    map cell_value (active_cells rows) = ["top left"].
Proof.
  destruct (getItemId_injective_one_active "abc" (Str "abc-top-left"))
    as (Hinj & rows & Hr & _).
  split.
  - intros E. apply Hinj in E; [discriminate E | cbn; tauto | cbn; tauto].
  - exists rows. split; [exact Hr|].
    rewrite render_grid_cells in Hr. injection Hr as <-. reflexivity.
Defined.

(** ** The options handed to the store *)

Lemma default_param_string_or_nullish d v :
  string_or_nullish v -> string_or_nullish (default_param (Str d) v).
Proof. destruct v; cbn; auto. Qed.

Lemma getItemId_returns p v :
  string_or_nullish v -> exists r, getItemId p v = Normal r.
Proof.
  intros H. destruct (getItemId_total p v H) as [(_ & E)|(c & _ & _ & E)];
    eexists; exact E.
Qed.

(** On props of the admitted types the options object is built without a
    throw, field by field as the source writes it. *)
Lemma compositeStoreProps_returns {W : Type} baseId (props : Props W) :
  string_or_nullish (value props) ->
  string_or_nullish (defaultValue props) ->
  exists d a,
    getItemId baseId (default_param (Str "center center") (defaultValue props))
      = Normal d /\
    getItemId baseId (value props) = Normal a /\
    compositeStoreProps baseId props =
      Normal (mkStoreProps d a (setActiveId_handler baseId (onChange props))).
Proof.
  intros Hv Hd.
  destruct (getItemId_returns baseId _
              (default_param_string_or_nullish "center center" _ Hd)) as (d & Ed).
  destruct (getItemId_returns baseId _ Hv) as (a & Ea).
  exists d, a. repeat split; try assumption.
  unfold compositeStoreProps. now rewrite Ed, Ea.
Qed.

(** C9: with neither [value] nor [defaultValue] supplied, [defaultValue]
    stands for "center center": the [defaultActiveId] handed to the store is
    [getItemId baseId "center center"], a defined id, and the one cell it
    makes active is the centre cell; no [activeId] is handed over. *)
Theorem default_active_id_is_center
    (W : Type) (baseId : string) (props : Props W) :
  value props = Undefined ->
  defaultValue props = Undefined ->
  exists o,
    compositeStoreProps baseId props = Normal o /\
    Normal (defaultActiveId o) = getItemId baseId (Str "center center") /\
    defaultActiveId o = Str (baseId ++ "-center-center") /\
    defaultActiveId o <> Undefined /\
    activeId o = Undefined /\
    exists rows,
      render_grid baseId (defaultActiveId o) = Normal rows /\
      map cell_value (active_cells rows) = ["center center"] /\
      nth_error (concat (map (map isActive) rows)) 4 = Some true.
Proof.
  intros Hv Hd.
  exists (mkStoreProps (Str (baseId ++ "-center-center")) Undefined
            (setActiveId_handler baseId (onChange props))).
  split; [unfold compositeStoreProps; rewrite Hv, Hd; reflexivity|].
  split; [reflexivity|]. split; [reflexivity|]. split; [discriminate|].
  split; [reflexivity|].
  exists (map (map (cell_of baseId (Str (baseId ++ "-center-center")))) GRID).
  split; [apply render_grid_cells|].
  split.
  - rewrite active_cells_rendered, map_map.
    cbn [ALIGNMENTS GRID concat app filter strict_eq cell_id_of].
    unfold cell_id_of. rewrite !eqb_append_l. reflexivity.
  - cbn [GRID map concat app cell_of isActive strict_eq nth_error].
    unfold cell_id_of. rewrite !eqb_append_l. reflexivity.
Qed.

Lemma default_active_id_is_center_witness :
  exists o,
    compositeStoreProps (W := unit) "abc" (mkProps Undefined Undefined None)
      = Normal o /\
    defaultActiveId o = Str "abc-center-center".
Proof.
  destruct (default_active_id_is_center unit "abc"
              (mkProps Undefined Undefined None) eq_refl eq_refl)
    as (o & Ho & _ & Hd & _).
  exists o. split; [exact Ho | exact Hd].
Defined.

(** ** The selection state (store modelled from the spec) *)

Lemma store_of_props {W : Type} baseId (props : Props W) d a :
  getItemId baseId (default_param (Str "center center") (defaultValue props))
    = Normal d ->
  getItemId baseId (value props) = Normal a ->
  AlignmentMatrixControl_store baseId props =
    Normal (useCompositeStore
              (mkStoreProps d a (setActiveId_handler baseId (onChange props)))).
Proof.
  intros Ed Ea. unfold AlignmentMatrixControl_store, compositeStoreProps.
  now rewrite Ed, Ea.
Qed.

(** With neither prop supplied the selection does not start unset: the
    control hands the centre cell's id to the store as [defaultActiveId],
    and the selection starts there. *)
Lemma initial_activeId_not_unset :
  exists o st,
    compositeStoreProps (W := unit) "abc" (mkProps Undefined Undefined None)
      = Normal o /\
    defaultActiveId o = Str "abc-center-center" /\
    AlignmentMatrixControl_store (W := unit) "abc" (mkProps Undefined Undefined None)
      = Normal st /\
    store_activeId st = Str "abc-center-center" /\
    store_activeId st <> Undefined.
Proof.
  eexists. eexists. split; [reflexivity|]. split; [reflexivity|].
  split; [reflexivity|]. split; [reflexivity | discriminate].
Qed.

(** C7 (amended): initial selection.  If a valid controlled value is
    supplied, the active id is [getItemId prefix value]; if no controlled
    value is supplied, the active id is [getItemId prefix defaultValue],
    where an omitted default value stands for "center center", so that with
    neither prop the active id is the id of the centre cell. *)
Theorem initial_activeId
    (W : Type) (baseId : string) (props : Props W) :
  string_or_nullish (value props) ->
  string_or_nullish (defaultValue props) ->
  exists st,
    AlignmentMatrixControl_store baseId props = Normal st /\
    (forall c, normalize (value props) = Normal (Str c) ->
       Normal (store_activeId st) = getItemId baseId (value props)) /\
    (value props = Undefined ->
       (defaultValue props <> Undefined ->
          Normal (store_activeId st) = getItemId baseId (defaultValue props)) /\
       (defaultValue props = Undefined ->
          Normal (store_activeId st) = getItemId baseId (Str "center center") /\
          store_activeId st = Str (baseId ++ "-center-center"))).
Proof.
  intros Hv Hd.
  destruct (compositeStoreProps_returns baseId props Hv Hd) as (d & a & Ed & Ea & _).
  eexists. split; [exact (store_of_props baseId props d a Ed Ea)|].
  unfold useCompositeStore, controlled. cbn [store_activeId activeId defaultActiveId].
  split.
  - intros c Hc. rewrite (getItemId_valid _ _ _ Hc) in Ea. injection Ea as <-.
    rewrite (getItemId_valid _ _ _ Hc). reflexivity.
  - intros Hu. rewrite Hu in Ea. cbn in Ea. injection Ea as <-.
    cbn [strict_eq negb]. split.
    + intros Hne. rewrite <- Ed.
      destruct (defaultValue props); [congruence| | | |]; reflexivity.
    + intros Hdu. rewrite Hdu in Ed. cbn in Ed. injection Ed as <-.
      split; reflexivity.
Qed.

Lemma initial_activeId_witness :
  exists st,
    AlignmentMatrixControl_store (W := unit) "abc"
      (mkProps (Str "top left") (Str "bottom-right") None) = Normal st /\
    store_activeId st = Str "abc-bottom-right".
Proof.
  destruct (initial_activeId unit "abc"
              (mkProps (Str "top left") (Str "bottom-right") None) I I)
    as (st & Hst & Hc & _).
  exists st. split; [exact Hst|].
  specialize (Hc "bottom right" eq_refl). now injection Hc.
Defined.

Lemma activate_unfold {W : Type} (st : CompositeStore W) item w :
  activate st item w =
  match setActiveId (store_props st) item w with
  | Normal (_, w') =>
      Normal (if controlled (store_props st) then st
              else mkStore (store_props st) item, w')
  | Throw e => Throw e
  end.
Proof.
  unfold activate, ebind, ret.
  destruct (setActiveId (store_props st) item w) as [[u w']|e]; reflexivity.
Qed.

(** Activating a rendered cell runs the callback, when there is one, on the
    cell's value. *)
Lemma handler_on_cell {W : Type} baseId (onChange : option (val -> Eff W unit)) c w :
  In c ALIGNMENTS ->
  setActiveId_handler baseId onChange (Str (cell_id_of baseId c)) w =
  match onChange with
  | Some f => f (Str c) w
  | None => Normal (tt, w)
  end.
Proof.
  intros Hc. rewrite handler_unfold, (getItemValue_cell baseId c Hc).
  now rewrite (truthy_canonical c Hc).
Qed.

(** C6: a callback that returns being given, activating the cell [cell]
    makes the active identifier that cell's id when no value is supplied
    (uncontrolled mode), and leaves the active identifier where the supplied
    value put it when a valid value is supplied (controlled mode). *)
Theorem activation_moves_selection_when_uncontrolled
    (W : Type) (baseId : string) (props : Props W) (cell : string) (w : W) :
  string_or_nullish (value props) ->
  string_or_nullish (defaultValue props) ->
  In cell ALIGNMENTS ->
  (forall f v w0, onChange props = Some f -> exists w1, f v w0 = Normal (tt, w1)) ->
  exists st cellId st' w',
    AlignmentMatrixControl_store baseId props = Normal st /\
    getItemId baseId (Str cell) = Normal cellId /\
    activate st cellId w = Normal (st', w') /\
    (value props = Undefined -> store_activeId st' = cellId) /\
    (forall c, normalize (value props) = Normal (Str c) ->
       store_activeId st' = store_activeId st /\
       Normal (store_activeId st) = getItemId baseId (value props)).
Proof.
  intros Hv Hd Hcell Hf.
  destruct (compositeStoreProps_returns baseId props Hv Hd) as (d & a & Ed & Ea & _).
  pose proof (store_of_props baseId props d a Ed Ea) as Hst.
  set (o := mkStoreProps d a (setActiveId_handler baseId (onChange props))) in *.
  assert (Hrun : exists w', setActiveId o (Str (cell_id_of baseId cell)) w = Normal (tt, w')).
  { cbn [o setActiveId]. rewrite (handler_on_cell _ _ _ _ Hcell).
    destruct (onChange props) as [f|] eqn:Ef; [now apply (Hf f) | now exists w]. }
  destruct Hrun as (w' & Hrun).
  exists (useCompositeStore o), (Str (cell_id_of baseId cell)),
    (if controlled o then useCompositeStore o
     else mkStore o (Str (cell_id_of baseId cell))), w'.
  split; [exact Hst|]. split; [now apply getItemId_canonical|].
  split; [rewrite activate_unfold; cbn [useCompositeStore store_props]; now rewrite Hrun|].
  split.
  - intros Hu. rewrite Hu in Ea. cbn in Ea. injection Ea as Ea. subst a.
    reflexivity.
  - intros c Hc. rewrite (getItemId_valid _ _ _ Hc) in Ea. injection Ea as Ea.
    subst a. split; [reflexivity|].
    now rewrite (getItemId_valid _ _ _ Hc).
Qed.

Lemma activation_moves_selection_when_uncontrolled_witness :
  (exists st st',
     AlignmentMatrixControl_store "abc" (mkProps Undefined Undefined (Some recording))
       = Normal st /\
     store_activeId st = Str "abc-center-center" /\
     activate st (Str "abc-top-left") [] = Normal (st', [Str "top left"]) /\
     store_activeId st' = Str "abc-top-left") /\
  (exists st st',
     AlignmentMatrixControl_store "abc"
       (mkProps Undefined (Str "bottom right") (Some recording)) = Normal st /\
     store_activeId st = Str "abc-bottom-right" /\
     activate st (Str "abc-top-left") [] = Normal (st', [Str "top left"]) /\
     store_activeId st' = Str "abc-bottom-right").
Proof.
  assert (Hin : In "top left" ALIGNMENTS) by (cbn; tauto).
  assert (Hrec : forall (f : val -> Eff (list val) unit) v w0,
             Some recording = Some f -> exists w1, f v w0 = Normal (tt, w1)).
  { intros f v w0 E. injection E as <-. eexists. reflexivity. }
  split.
  - destruct (activation_moves_selection_when_uncontrolled (list val) "abc"
                (mkProps Undefined Undefined (Some recording)) "top left" []
                I I Hin Hrec)
      as (st & cellId & st' & w' & Hst & Hid & Hact & Hu & _).
    injection Hid as <-. exists st, st'. split; [exact Hst|].
    injection Hst as <-. split; [reflexivity|]. split; [|exact (Hu eq_refl)].
    pose proof Hact as Hrun. cbv in Hrun. injection Hrun as _ <-. exact Hact.
  - destruct (activation_moves_selection_when_uncontrolled (list val) "abc"
                (mkProps Undefined (Str "bottom right") (Some recording)) "top left" []
                I I Hin Hrec)
      as (st & cellId & st' & w' & Hst & Hid & Hact & _ & Hc).
    injection Hid as <-. exists st, st'. split; [exact Hst|].
    destruct (Hc "bottom right" eq_refl) as (Hsame & _).
    injection Hst as <-. split; [reflexivity|]. split; [|exact Hsame].
    pose proof Hact as Hrun. cbv in Hrun. injection Hrun as _ <-. exact Hact.
Defined.

(** ** Further properties of the normaliser and the codec *)

Lemma normalize_range v r :
  normalize v = Normal r ->
  r = Undefined \/ exists c, r = Str c /\ In c ALIGNMENTS.
Proof.
  destruct v as [| |s|n|b]; try discriminate.
  - cbn. intros H. injection H as <-. now left.
  - cbn. intros H. injection H as <-. now left.
  - destruct (normalize_Str_cases s) as [E|(c & Hc & E)]; rewrite E;
      intros H; injection H as <-; [now left | right; now exists c].
Qed.

Lemma getItemId_of_normalize p v :
  getItemId p v =
  match normalize v with
  | Normal (Str c) => Normal (Str (cell_id_of p c))
  | Normal _ => Normal Undefined
  | Throw e => Throw e
  end.
Proof.
  destruct (normalize v) as [r|e] eqn:H; [|now apply getItemId_throw].
  destruct (normalize_range v r H) as [->|(c & -> & Hc)].
  - now apply getItemId_invalid.
  - now apply getItemId_valid.
Qed.

(** X1: [normalize] is idempotent: normalising its own result changes
    nothing, on any argument (a throw stays a throw). *)
Theorem normalize_idempotent (v : val) :
  (n <- normalize v ;; normalize n) = normalize v.
Proof.
  destruct (normalize v) as [r|e] eqn:H; [|reflexivity].
  destruct (normalize_range v r H) as [->|(c & -> & Hc)]; cbn [bind].
  - reflexivity.
  - now apply normalize_canonical.
Qed.

(** X2: [getItemId] sees its argument only through [normalize]: two arguments
    get the same id exactly when they normalise alike, so that "center",
    "center center" and "center-center" share one id. *)
Theorem getItemId_same_id_iff (p : string) (v1 v2 : val) :
  (getItemId p v1 = getItemId p v2 <-> normalize v1 = normalize v2) /\
  getItemId p v1 = (n <- normalize v1 ;; getItemId p n) /\
  getItemId p (Str "center") = getItemId p (Str "center center") /\
  getItemId p (Str "center") = getItemId p (Str "center-center").
Proof.
  split; [|split; [|split; reflexivity]].
  - rewrite !getItemId_of_normalize.
    destruct (normalize v1) as [r1|[]] eqn:H1;
      [destruct (normalize_range _ _ H1) as [->|(c1 & -> & Hc1)]|];
      (destruct (normalize v2) as [r2|[]] eqn:H2;
        [destruct (normalize_range _ _ H2) as [->|(c2 & -> & Hc2)]|]);
      try (split; intros E; (reflexivity || discriminate E)).
    split; intros E; injection E as E.
    + now rewrite (cell_id_of_injective p c1 c2 Hc1 Hc2 E).
    + now rewrite E.
  - destruct (normalize v1) as [r|e] eqn:H; cbn [bind];
      [|now apply getItemId_throw].
    destruct (normalize_range _ _ H) as [->|(c & -> & Hc)].
    + now rewrite (getItemId_invalid _ _ H).
    + rewrite (getItemId_valid _ _ _ H). symmetry. now apply getItemId_canonical.
Qed.

(** X3: Decoding then encoding canonicalises an id: every id that decodes is
    sent to the id of the cell it decodes to, and the ids left unchanged
    are exactly the ids of the nine cells. *)
Theorem getItemId_getItemValue_canonicalises (p id : string) :
  (forall c, getItemValue p (Str id) = Normal (Str c) ->
     (v <- getItemValue p (Str id) ;; getItemId p v)
       = Normal (Str (cell_id_of p c))) /\
  ((v <- getItemValue p (Str id) ;; getItemId p v) = Normal (Str id) <->
   exists c, In c ALIGNMENTS /\ id = cell_id_of p c).
Proof.
  split.
  - intros c H. rewrite H. cbn [bind]. apply getItemId_canonical.
    rewrite getItemValue_Str in H. now apply normalize_result in H.
  - split.
    + destruct (getItemValue_total p (Str id) I) as [E|(c & Hc & E)]; rewrite E;
        cbn [bind].
      * discriminate.
      * rewrite (getItemId_canonical p c Hc). intros H. injection H as H.
        exists c. now split.
    + intros (c & Hc & ->). rewrite (getItemValue_cell p c Hc). cbn [bind].
      now apply getItemId_canonical.
Qed.

Lemma has_char_append ch a b :
  has_char ch (a ++ b) = has_char ch a || has_char ch b.
Proof.
  induction a as [|c a IH]; cbn; [reflexivity|]. now rewrite IH, orb_assoc.
Qed.

Lemma no_hyphen_no_occurrence p s :
  has_char "-" s = false -> forall a b, s <> a ++ (p ++ "-") ++ b.
Proof.
  intros H a b E. rewrite E, !has_char_append in H. cbn in H.
  rewrite !orb_true_r in H. discriminate H.
Qed.

Lemma canonical_no_hyphen c : In c ALIGNMENTS -> has_char "-" c = false.
Proof.
  rewrite In_ALIGNMENTS. intros H.
  repeat (destruct H as [->|H]; [reflexivity|]). subst. reflexivity.
Qed.

(** X4: The prefix is not required for decoding: under any prefix a bare
    canonical value decodes to itself, so that it and the id of its cell,
    two different strings, decode alike. *)
Theorem getItemValue_bare_value (p c : string) :
  In c ALIGNMENTS ->
  getItemValue p (Str c) = Normal (Str c) /\
  getItemValue p (Str (cell_id_of p c)) = Normal (Str c) /\
  c <> cell_id_of p c.
Proof.
  intros Hc. pose proof (canonical_no_hyphen c Hc) as Hh. split; [|split].
  - rewrite getItemValue_Str.
    rewrite (replace_absent _ "" _ (no_hyphen_no_occurrence p c Hh)).
    now apply normalize_canonical.
  - now apply getItemValue_cell.
  - intros E. rewrite E in Hh. unfold cell_id_of in Hh.
    rewrite !has_char_append in Hh. cbn in Hh.
    rewrite orb_true_r in Hh. discriminate Hh.
Qed.

Lemma getItemValue_bare_value_witness :
  getItemValue "abc" (Str "bottom center") = Normal (Str "bottom center") /\
  getItemValue "abc" (Str "abc-bottom-center") = Normal (Str "bottom center").
Proof.
  assert (H : In "bottom center" ALIGNMENTS) by (cbn; tauto).
  destruct (getItemValue_bare_value "abc" "bottom center" H) as (H1 & H2 & _).
  split; [exact H1 | exact H2].
Defined.

Lemma hyphenated_no_space c :
  In c ALIGNMENTS -> has_char " " (replace " " "-" c) = false.
Proof.
  rewrite In_ALIGNMENTS. intros H.
  repeat (destruct H as [->|H]; [reflexivity|]). subst. reflexivity.
Qed.

(** X5: A generated id is the prefix, a hyphen and a suffix without any space;
    with a prefix free of spaces the whole id is free of spaces. *)
Theorem getItemId_no_space (p : string) (v : val) (id : string) :
  getItemId p v = Normal (Str id) ->
  exists suffix,
    id = p ++ "-" ++ suffix /\
    has_char " " suffix = false /\
    (has_char " " p = false -> has_char " " id = false).
Proof.
  rewrite getItemId_of_normalize.
  destruct (normalize v) as [r|e] eqn:H; [|discriminate].
  destruct (normalize_range _ _ H) as [->|(c & -> & Hc)]; [discriminate|].
  intros E. injection E as <-. exists (replace " " "-" c).
  pose proof (hyphenated_no_space c Hc) as Hs.
  split; [reflexivity|]. split; [exact Hs|].
  intros Hp. unfold cell_id_of. rewrite !has_char_append, Hp, Hs. reflexivity.
Qed.

Lemma getItemId_no_space_witness :
  has_char " " "alignment-matrix-control-0-center-center" = false.
Proof.
  destruct (getItemId_no_space "alignment-matrix-control-0" (Str "center")
              "alignment-matrix-control-0-center-center" eq_refl)
    as (suffix & _ & _ & H).
  exact (H eq_refl).
Defined.

Lemma getAlignmentIndex_valid x c :
  normalize (default_param (Str "center") x) = Normal (Str c) ->
  getAlignmentIndex x = Normal (Num (indexOf ALIGNMENTS (Str c))).
Proof.
  intros H. pose proof (normalize_result _ _ H) as Hc.
  unfold getAlignmentIndex. rewrite H. cbn [bind].
  rewrite (truthy_canonical c Hc). cbn [negb].
  destruct (indexOf_canonical c Hc) as (i & Hi & _ & ->).
  destruct (Z.ltb_spec (-1) i); [reflexivity | lia].
Qed.

(** X7: A number returned by [getAlignmentIndex] locates the normalised
    argument in the grid: row [i / 3], column [i mod 3]; hence two arguments
    with the same index normalise alike. *)
Theorem getAlignmentIndex_locates (x1 x2 : val) (i : Z) :
  getAlignmentIndex x1 = Normal (Num i) ->
  getAlignmentIndex x2 = Normal (Num i) ->
  exists c,
    normalize (default_param (Str "center") x1) = Normal (Str c) /\
    normalize (default_param (Str "center") x2) = Normal (Str c) /\
    (0 <= i <= 8)%Z /\
    nth_error (nth (Z.to_nat (i / 3)) GRID []) (Z.to_nat (i mod 3)) = Some c.
Proof.
  assert (Hloc : forall x, getAlignmentIndex x = Normal (Num i) ->
            exists c, normalize (default_param (Str "center") x) = Normal (Str c) /\
                      (0 <= i <= 8)%Z /\
                      nth_error ALIGNMENTS (Z.to_nat i) = Some c /\
                      nth_error (nth (Z.to_nat (i / 3)) GRID []) (Z.to_nat (i mod 3))
                        = Some c).
  { intros x Hx.
    destruct (normalize (default_param (Str "center") x)) as [r|e] eqn:H.
    - destruct (normalize_range _ _ H) as [->|(c & -> & Hc)].
      + unfold getAlignmentIndex in Hx. rewrite H in Hx. discriminate Hx.
      + rewrite (getAlignmentIndex_valid x c H) in Hx. injection Hx as <-.
        exists c. split; [reflexivity|]. revert Hc. rewrite In_ALIGNMENTS. intros Hc.
        repeat (destruct Hc as [->|Hc];
                [repeat split; try reflexivity; cbv; discriminate|]).
        subst. repeat split; try reflexivity; cbv; discriminate.
    - unfold getAlignmentIndex in Hx. rewrite H in Hx. discriminate Hx. }
  intros H1 H2.
  destruct (Hloc x1 H1) as (c1 & N1 & Hi & A1 & G1).
  destruct (Hloc x2 H2) as (c2 & N2 & _ & A2 & _).
  assert (c2 = c1) by congruence. subst c2.
  exists c1. repeat split; try assumption; lia.
Qed.

Lemma getAlignmentIndex_locates_witness :
  normalize (Str "bottom-left") = normalize (Str "bottom left") /\
  nth_error (nth 2 GRID []) 0 = Some "bottom left".
Proof.
  destruct (getAlignmentIndex_locates (Str "bottom-left") (Str "bottom left") 6
              eq_refl eq_refl) as (c & H1 & H2 & _ & H3).
  split; [cbn [default_param] in H1, H2; congruence|].
  cbn [default_param] in H2. injection H2 as <-. exact H3.
Defined.

(** ** Sequences of activations *)

Lemma handler_recording baseId id calls :
  string_or_nullish id ->
  setActiveId_handler baseId (Some recording) id calls =
  Normal (tt, (calls ++ decoded baseId [id])%list).
Proof.
  intros H. rewrite handler_unfold. unfold decoded. cbn [flat_map].
  destruct (getItemValue_total baseId id H) as [E|(c & Hc & E)]; rewrite E.
  - cbn. now rewrite app_nil_r.
  - rewrite (truthy_canonical c Hc). reflexivity.
Qed.

Lemma decoded_cons baseId id ids :
  decoded baseId (id :: ids) = (decoded baseId [id] ++ decoded baseId ids)%list.
Proof. unfold decoded. cbn [flat_map]. now rewrite app_nil_r. Qed.

Lemma decoded_canonical baseId ids :
  Forall (fun v => exists c, v = Str c /\ In c ALIGNMENTS) (decoded baseId ids).
Proof.
  induction ids as [|id ids IH]; [constructor|].
  rewrite decoded_cons. apply Forall_app. split; [|exact IH].
  unfold decoded. cbn [flat_map].
  destruct (getItemValue baseId id) as [r|e] eqn:E; [|constructor].
  destruct r as [| |c|n|b]; try constructor; [|constructor].
  exists c. split; [reflexivity|].
  destruct id as [| |s| |]; try discriminate E.
  rewrite getItemValue_Str in E. now apply normalize_result in E.
Qed.

(** X8: Over any sequence of activations with string or absent ids, a
    recording [onChange] receives exactly the values the ids decode to, in
    order and once each; what it receives is always one of the nine
    canonical strings, never a shorthand or a hyphenated form. *)
Theorem activations_log (baseId : string) (ids calls : list val) :
  Forall string_or_nullish ids ->
  activations baseId (Some recording) ids calls
    = Normal (tt, (calls ++ decoded baseId ids)%list) /\
  Forall (fun v => exists c, v = Str c /\ In c ALIGNMENTS) (decoded baseId ids) /\
  (List.length (decoded baseId ids) <= List.length ids)%nat.
Proof.
  intros H. split; [|split; [apply decoded_canonical|]].
  - revert calls. induction H as [|id ids Hid Hids IH]; intros calls.
    + cbn. now rewrite app_nil_r.
    + cbn [activations]. unfold ebind. rewrite (handler_recording _ _ _ Hid).
      rewrite IH, (decoded_cons baseId id ids). now rewrite app_assoc.
  - clear H. induction ids as [|id ids IH]; [cbn; lia|].
    rewrite decoded_cons, length_app. cbn [List.length].
    assert (List.length (decoded baseId [id]) <= 1)%nat; [|lia].
    unfold decoded. cbn [flat_map].
    destruct (getItemValue baseId id) as [[| |c|n|b]|e]; cbn; lia.
Qed.

Lemma activations_log_witness :
  activations "abc" (Some recording)
    [Str "abc-top-left"; Str "abc-diagonal"; Null; Str "abc-center"; Str "xyz-top-right"] []
  = Normal (tt, [Str "top left"; Str "center center"]).
Proof.
  assert (H : Forall string_or_nullish
                [Str "abc-top-left"; Str "abc-diagonal"; Null; Str "abc-center";
                 Str "xyz-top-right"]) by (repeat constructor).
  exact (proj1 (activations_log "abc" _ [] H)).
Defined.

(** ** The icon *)

Lemma getAlignmentIndex_default x :
  getAlignmentIndex (default_param (Str "center") x) = getAlignmentIndex x.
Proof. destruct x; reflexivity. Qed.

Lemma icon_unfold x :
  AlignmentMatrixControlIcon x =
  (alignIndex <- getAlignmentIndex x ;;
   Normal (map_index
             (fun align index => mkPoint align (strict_eq alignIndex (Num index)))
             ALIGNMENTS)).
Proof. unfold AlignmentMatrixControlIcon. now rewrite getAlignmentIndex_default. Qed.

Lemma control_active_flags baseId c :
  map isActive
      (concat (map (map (cell_of baseId (Str (cell_id_of baseId c)))) GRID)) =
  map (fun c' => String.eqb (replace " " "-" c') (replace " " "-" c)) ALIGNMENTS.
Proof.
  rewrite <- concat_map, map_map. apply map_ext. intros c'.
  cbn [cell_of isActive strict_eq]. unfold cell_id_of.
  rewrite eqb_append_l. apply (eqb_append_l "-").
Qed.

(** X10: For a value that [normalize] accepts, the icon draws nine points keyed
    by the alignments, exactly one of them active, the one of the
    normalised value; they are the same flags, position by position, that
    the control gives its cells when that value's id is the active id. *)
Theorem icon_marks_value (x : val) (c : string) (baseId : string) :
  normalize (default_param (Str "center") x) = Normal (Str c) ->
  exists points rows,
    AlignmentMatrixControlIcon x = Normal points /\
    map point_key points = ALIGNMENTS /\
    map point_key (filter point_isActive points) = [c] /\
    render_grid baseId (Str (cell_id_of baseId c)) = Normal rows /\
    map point_isActive points = map isActive (concat rows).
Proof.
  intros H. pose proof (normalize_result _ _ H) as Hc.
  exists (map_index
            (fun align index =>
               mkPoint align (strict_eq (Num (indexOf ALIGNMENTS (Str c))) (Num index)))
            ALIGNMENTS),
         (map (map (cell_of baseId (Str (cell_id_of baseId c)))) GRID).
  split; [rewrite icon_unfold, (getAlignmentIndex_valid x c H); reflexivity|].
  split; [reflexivity|].
  rewrite control_active_flags.
  split; [|split; [apply render_grid_cells|]];
    revert Hc; rewrite In_ALIGNMENTS; intros Hc;
    repeat (destruct Hc as [->|Hc]; [reflexivity|]); subst; reflexivity.
Qed.

Lemma icon_marks_value_witness :
  exists points,
    AlignmentMatrixControlIcon Undefined = Normal points /\
    map point_isActive points =
      [false; false; false; false; true; false; false; false; false].
Proof.
  destruct (icon_marks_value Undefined "center center" "abc" eq_refl)
    as (points & rows & Hp & _ & _ & Hr & Hflags).
  exists points. split; [exact Hp|].
  rewrite Hflags. rewrite render_grid_cells in Hr. injection Hr as <-. reflexivity.
Defined.

(** X11: For a string that [normalize] rejects, and for [null], the icon draws
    its nine points with none of them active; it does not fall back to the
    centre, which only an omitted value gets. *)
Theorem icon_invalid_value (x : val) :
  normalize (default_param (Str "center") x) = Normal Undefined ->
  exists points,
    AlignmentMatrixControlIcon x = Normal points /\
    map point_key points = ALIGNMENTS /\
    filter point_isActive points = [].
Proof.
  intros H. eexists. split.
  - rewrite icon_unfold. unfold getAlignmentIndex. rewrite H. reflexivity.
  - split; reflexivity.
Qed.

Lemma icon_invalid_value_witness :
  exists points,
    AlignmentMatrixControlIcon Null = Normal points /\
    filter point_isActive points = [].
Proof.
  destruct (icon_invalid_value Null eq_refl) as (points & Hp & _ & Hn).
  exists points. split; [exact Hp | exact Hn].
Defined.

(** ** The story *)

(** The story does not forward its [defaultValue] argument: whatever it
    is, the first render hands the store no [activeId] and the centre
    cell's id as [defaultActiveId]. *)
Theorem Template_ignores_defaultValue
    (S : Type) (baseId : string) (defaultValue : val)
    (onChange : option (val -> Eff S unit)) :
  exists o,
    compositeStoreProps baseId (Template_props defaultValue onChange Undefined)
      = Normal o /\
    activeId o = Undefined /\
    defaultActiveId o = Str (cell_id_of baseId "center center").
Proof. eexists. split; [reflexivity|]. split; reflexivity. Qed.

(** X12: In the story the selection follows the activation: activating the cell
    of [c] runs the story's own [onChange] on [c], once, and stores [c] as
    the story's value (when that [onChange] throws, so does the
    activation); the render with that value hands the store the id of that
    very cell as [activeId]; an id that does not decode leaves the story's
    value and the state of its [onChange] as they were. *)
Theorem Template_selection_follows_activation
    (S : Type) (baseId : string) (story_defaultValue : val)
    (story_onChange : option (val -> Eff S unit))
    (c : string) (current : val) (s : S) :
  In c ALIGNMENTS ->
  setActiveId_handler baseId
    (onChange (Template_props story_defaultValue story_onChange current))
    (Str (cell_id_of baseId c)) (current, s)
  = match story_onChange with
    | Some g =>
        match g (Str c) s with
        | Normal (_, s') => Normal (tt, (Str c, s'))
        | Throw e => Throw e
        end
    | None => Normal (tt, (Str c, s))
    end /\
  (exists o,
     compositeStoreProps baseId
       (Template_props story_defaultValue story_onChange (Str c)) = Normal o /\
     activeId o = Str (cell_id_of baseId c)) /\
  (forall id, string_or_nullish id ->
     getItemValue baseId id = Normal Undefined ->
     setActiveId_handler baseId
       (onChange (Template_props story_defaultValue story_onChange current))
       id (current, s) = Normal (tt, (current, s))).
Proof.
  intros Hc. split; [|split].
  - cbn [Template_props onChange]. rewrite handler_unfold.
    rewrite (getItemValue_cell baseId c Hc), (truthy_canonical c Hc).
    unfold Template_onChange. cbn [snd]. reflexivity.
  - eexists. split.
    + unfold compositeStoreProps.
      cbn [Template_props default_param defaultValue value onChange].
      rewrite (getItemId_canonical baseId "center center") by (cbn; tauto).
      rewrite (getItemId_canonical baseId c Hc). reflexivity.
    + reflexivity.
  - intros id _ E. rewrite handler_unfold, E. reflexivity.
Qed.

Lemma Template_selection_follows_activation_witness :
  setActiveId_handler "abc"
    (onChange (Template_props (Str "top left") (Some recording) Undefined))
    (Str "abc-bottom-right") (Undefined, [])
  = Normal (tt, (Str "bottom right", [Str "bottom right"])).
Proof.
  assert (Hc : In "bottom right" ALIGNMENTS) by (cbn; tauto).
  exact (proj1 (Template_selection_follows_activation (list val) "abc"
                  (Str "top left") (Some recording) "bottom right" Undefined []
                  Hc)).
Defined.

(** ** utils/values.js *)

Lemma getDefinedValue_find arr fallback :
  getDefinedValue (Some arr) fallback =
  if isValueDefined (array_find isValueDefined arr)
  then array_find isValueDefined arr else fallback.
Proof.
  unfold getDefinedValue. destruct (array_find isValueDefined arr); reflexivity.
Qed.

Lemma array_find_first f pre v post :
  Forall (fun x => f x = false) pre -> f v = true ->
  array_find f (pre ++ v :: post)%list = v.
Proof.
  induction 1 as [|x pre Hx _ IH]; intros Hv; cbn.
  - now rewrite Hv.
  - rewrite Hx. now apply IH.
Qed.

Lemma array_find_none f arr :
  Forall (fun x => f x = false) arr -> array_find f arr = Undefined.
Proof. induction 1 as [|x arr Hx _ IH]; cbn; [reflexivity | now rewrite Hx]. Qed.

(** X13: [getDefinedValue] returns the first element that is neither [null]
    nor [undefined], whatever follows it; an empty string, zero or [false]
    counts as defined and is returned, not skipped. *)
Theorem getDefinedValue_first_defined (pre post : list val) (v fallback : val) :
  Forall (fun x => isValueDefined x = false) pre ->
  isValueDefined v = true ->
  getDefinedValue (Some (pre ++ v :: post)%list) fallback = v /\
  getDefinedValue (Some (pre ++ Str "" :: post)%list) fallback = Str "" /\
  isValueEmpty (getDefinedValue (Some (pre ++ Str "" :: post)%list) fallback) = true /\
  getDefinedValue (Some (pre ++ Num 0 :: post)%list) fallback = Num 0 /\
  getDefinedValue (Some (pre ++ Boolean false :: post)%list) fallback = Boolean false.
Proof.
  intros Hpre Hv.
  assert (G : forall x, isValueDefined x = true ->
            getDefinedValue (Some (pre ++ x :: post)%list) fallback = x).
  { intros x Hx. rewrite getDefinedValue_find, (array_find_first _ _ _ _ Hpre Hx).
    now rewrite Hx. }
  split; [now apply G|]. rewrite !G by reflexivity. repeat split; reflexivity.
Qed.

Lemma getDefinedValue_first_defined_witness :
  getDefinedValue (Some [Undefined; Null; Str "a"; Str "b"]) (Str "z") = Str "a".
Proof.
  assert (Hpre : Forall (fun x => isValueDefined x = false) [Undefined; Null])
    by (repeat constructor).
  exact (proj1 (getDefinedValue_first_defined [Undefined; Null] [Str "b"]
                  (Str "a") (Str "z") Hpre eq_refl)).
Defined.

(** X14: Without a defined element (an empty array, an omitted array, only
    [null] and [undefined]) [getDefinedValue] returns the fallback; lookups
    chain, the lookup in a concatenation being the lookup in the first
    part with the lookup in the second as its fallback; and the result is
    defined exactly when an element or the fallback is. *)
Theorem getDefinedValue_fallback (arr1 arr2 : list val) (fallback : val) :
  (Forall (fun x => isValueDefined x = false) arr1 ->
   getDefinedValue (Some arr1) fallback = fallback) /\
  getDefinedValue None fallback = fallback /\
  getDefinedValue (Some (arr1 ++ arr2)%list) fallback
    = getDefinedValue (Some arr1) (getDefinedValue (Some arr2) fallback) /\
  isValueDefined (getDefinedValue (Some arr1) fallback)
    = existsb isValueDefined arr1 || isValueDefined fallback.
Proof.
  split; [|split; [|split]].
  - intros H. now rewrite getDefinedValue_find, (array_find_none _ _ H).
  - reflexivity.
  - rewrite !getDefinedValue_find.
    induction arr1 as [|x arr1 IH]; cbn [app array_find].
    + cbn. reflexivity.
    + destruct (isValueDefined x) eqn:Hx; [now rewrite Hx | exact IH].
  - rewrite getDefinedValue_find.
    induction arr1 as [|x arr1 IH]; cbn [array_find existsb].
    + reflexivity.
    + destruct (isValueDefined x) eqn:Hx; [now rewrite Hx | exact IH].
Qed.

(** ** h-stack/hook.tsx *)

Lemma obj_get_set k v o k' :
  obj_get (obj_set k v o) k' = if String.eqb k k' then v else obj_get o k'.
Proof.
  induction o as [|[k1 v1] r IH]; cbn; [reflexivity|].
  destruct (String.eqb_spec k1 k) as [->|N1]; cbn.
  - destruct (String.eqb_spec k k'); reflexivity.
  - rewrite IH. destruct (String.eqb_spec k1 k') as [->|]; [|reflexivity].
    destruct (String.eqb_spec k k'); [congruence | reflexivity].
Qed.

Lemma obj_has_set k v o k' :
  obj_has (obj_set k v o) k' = String.eqb k k' || obj_has o k'.
Proof.
  induction o as [|[k1 v1] r IH]; cbn; [now rewrite orb_false_r|].
  destruct (String.eqb_spec k1 k) as [->|N1]; cbn.
  - destruct (String.eqb k k'); reflexivity.
  - rewrite IH. destruct (String.eqb k1 k'), (String.eqb k k'); reflexivity.
Qed.

Lemma obj_has_In o k : obj_has o k = true <-> In k (map fst o).
Proof.
  induction o as [|[k1 v1] r IH]; cbn; [intuition discriminate|].
  rewrite orb_true_iff, IH, String.eqb_eq. reflexivity.
Qed.

Lemma obj_has_spread t s k :
  obj_has (obj_spread t s) k = obj_has t k || obj_has s k.
Proof.
  unfold obj_spread. revert t. induction s as [|[k1 v1] s IH]; intros t; cbn.
  - now rewrite orb_false_r.
  - rewrite IH, obj_has_set.
    destruct (String.eqb k1 k), (obj_has t k), (obj_has s k); reflexivity.
Qed.

(** A later spread wins, key by key. *)
Lemma obj_get_spread t s k :
  NoDup (map fst s) ->
  obj_get (obj_spread t s) k = if obj_has s k then obj_get s k else obj_get t k.
Proof.
  unfold obj_spread. revert t. induction s as [|[k1 v1] s IH]; intros t H; cbn.
  - reflexivity.
  - apply NoDup_cons_iff in H. destruct H as (Hk1 & Hs).
    rewrite (IH _ Hs), obj_get_set.
    destruct (String.eqb_spec k1 k) as [->|N]; cbn; [|reflexivity].
    destruct (obj_has s k) eqn:E; [|reflexivity].
    apply obj_has_In in E. contradiction.
Qed.

Lemma obj_has_rest keys o k :
  obj_has (obj_rest keys o) k =
  negb (existsb (String.eqb k) keys) && obj_has o k.
Proof.
  unfold obj_rest. induction o as [|[k1 v1] r IH]; cbn.
  - now rewrite andb_false_r.
  - destruct (String.eqb_spec k1 k) as [->|N]; cbn.
    + destruct (existsb (String.eqb k) keys); cbn; [exact IH | now rewrite String.eqb_refl].
    + destruct (existsb (String.eqb k1) keys); cbn; [exact IH|].
      destruct (String.eqb_spec k1 k); [contradiction | exact IH].
Qed.

Lemma obj_get_rest keys o k :
  obj_get (obj_rest keys o) k =
  if existsb (String.eqb k) keys then Undefined else obj_get o k.
Proof.
  unfold obj_rest. induction o as [|[k1 v1] r IH]; cbn.
  - now destruct (existsb (String.eqb k) keys).
  - destruct (String.eqb_spec k1 k) as [->|N]; cbn.
    + destruct (existsb (String.eqb k) keys) eqn:E; cbn; [exact IH|].
      now rewrite String.eqb_refl.
    + destruct (existsb (String.eqb k1) keys); cbn; [exact IH|].
      destruct (String.eqb_spec k1 k); [contradiction | exact IH].
Qed.

Lemma NoDup_obj_rest keys o :
  NoDup (map fst o) -> NoDup (map fst (obj_rest keys o)).
Proof.
  unfold obj_rest. induction o as [|[k1 v1] r IH]; cbn; intros H; [constructor|].
  apply NoDup_cons_iff in H. destruct H as (Hk & Hr).
  destruct (existsb (String.eqb k1) keys); cbn; [now apply IH|].
  constructor; [|now apply IH].
  intros Hin. apply Hk. apply in_map_iff in Hin. destruct Hin as (kv & <- & Hkv).
  apply filter_In in Hkv. apply in_map. tauto.
Qed.

(** Alignment objects carry an [align], a [justify], both or nothing. *)
Lemma align_shape inherited alignment direction o :
  getAlignmentProps inherited alignment direction = Props_object o ->
  exists a j,
    o = [] \/ o = [("align", a)] \/
    o = [("align", a); ("justify", j)] \/ o = [("justify", j); ("align", a)].
Proof.
  intros H. exists (obj_get o "align"), (obj_get o "justify"). revert H.
  unfold getAlignmentProps.
  destruct (isValueDefined alignment); cbn [negb];
    [|intros H; injection H as <-; auto].
  destruct alignment as [| |k|n|b];
    try (intros H; injection H as <-; cbn; auto).
  destruct (strict_eq (Str "column") (default_param (Str "row") direction)).
  - cbn [table_get V_ALIGNMENTS].
    repeat (match goal with
            | |- context [String.eqb ?x k] =>
                destruct (String.eqb x k);
                [intros H; injection H as <-; cbn; auto 6|]
            end).
    destruct (inherited k); [discriminate|].
    intros H; injection H as <-. cbn; auto.
  - cbn [table_get H_ALIGNMENTS].
    repeat (match goal with
            | |- context [String.eqb ?x k] =>
                destruct (String.eqb x k);
                [intros H; injection H as <-; cbn; auto 6|]
            end).
    destruct (inherited k); [discriminate|].
    intros H; injection H as <-. cbn; auto.
Qed.

(** X15: Row and column are dual: for each named alignment but "edge" and
    "stretch", the column object is the row object with [align] and
    [justify] exchanged, both defined; "edge" and "stretch" give the same
    [align] and [justify] in both directions, "stretch" setting no
    [justify].  The row table is also used when the direction is omitted. *)
Theorem getAlignmentProps_row_column_dual
    (inherited : string -> bool) (k : string) :
  In k (map fst H_ALIGNMENTS) ->
  exists row col,
    getAlignmentProps inherited (Str k) (Str "row") = Props_object row /\
    getAlignmentProps inherited (Str k) Undefined = Props_object row /\
    getAlignmentProps inherited (Str k) (Str "column") = Props_object col /\
    isValueDefined (obj_get row "align") = true /\
    (k <> "edge" -> k <> "stretch" ->
       obj_get col "align" = obj_get row "justify" /\
       obj_get col "justify" = obj_get row "align" /\
       isValueDefined (obj_get row "justify") = true) /\
    (k = "edge" \/ k = "stretch" ->
       obj_get col "align" = obj_get row "align" /\
       obj_get col "justify" = obj_get row "justify" /\
       obj_has row "justify" = negb (String.eqb k "stretch")).
Proof.
  cbn [map fst H_ALIGNMENTS In]. intros H.
  repeat (destruct H as [<-|H];
          [eexists; eexists;
           split; [reflexivity|]; split; [reflexivity|]; split; [reflexivity|];
           split; [reflexivity|]; split;
           [ intros N1 N2;
             first [ exfalso; apply N1; reflexivity
                   | exfalso; apply N2; reflexivity
                   | repeat split; reflexivity ]
           | intros [E|E]; first [ discriminate E | repeat split; reflexivity ] ]|]).
  destruct H.
Qed.

Lemma getAlignmentProps_row_column_dual_witness :
  exists row col,
    getAlignmentProps (fun _ => false) (Str "topRight") (Str "row")
      = Props_object row /\
    getAlignmentProps (fun _ => false) (Str "topRight") (Str "column")
      = Props_object col /\
    obj_get col "align" = obj_get row "justify" /\
    obj_get col "justify" = obj_get row "align".
Proof.
  assert (Hk : In "topRight" (map fst H_ALIGNMENTS)) by (cbn; tauto).
  destruct (getAlignmentProps_row_column_dual (fun _ => false) "topRight" Hk)
    as (row & col & Hr & _ & Hc & _ & Hswap & _).
  exists row, col. split; [exact Hr|]. split; [exact Hc|].
  assert (N1 : "topRight" <> "edge") by discriminate.
  assert (N2 : "topRight" <> "stretch") by discriminate.
  destruct (Hswap N1 N2) as (H1 & H2 & _). split; [exact H1 | exact H2].
Defined.

Lemma existsb_eqb_In k l : existsb (String.eqb k) l = true <-> In k l.
Proof.
  rewrite existsb_exists. split.
  - intros (x & Hx & E). apply String.eqb_eq in E. now subst.
  - intros H. exists k. split; [exact H | apply String.eqb_refl].
Qed.

Lemma existsb_eqb_not_In k l : ~ In k l -> existsb (String.eqb k) l = false.
Proof.
  intros H. destruct (existsb (String.eqb k) l) eqn:E; [|reflexivity].
  apply existsb_eqb_In in E. contradiction.
Qed.

(** The alignment object [useHStack] spreads. *)
Lemma useHStack_align_shape inherited props :
  exists a j,
    let align :=
      match getAlignmentProps inherited
              (default_param (Str "edge") (obj_get props "alignment"))
              (obj_get props "direction") with
      | Props_object o => o
      | Inherited_member _ => []
      end in
    align = [] \/ align = [("align", a)] \/
    align = [("align", a); ("justify", j)] \/ align = [("justify", j); ("align", a)].
Proof.
  cbv zeta. destruct (getAlignmentProps inherited _ _) as [o|k] eqn:E.
  - now apply align_shape in E.
  - exists Undefined, Undefined. now left.
Qed.

(** Every property of the result, by where it comes from: [gap] last, then
    the caller's other props, then the alignment, then the two defaults. *)
Lemma useHStack_get inherited props k :
  NoDup (map fst props) ->
  obj_get (propsForFlex_after_children inherited props) k =
  let other := obj_rest ["alignment"; "children"; "direction"; "spacing"] props in
  let align :=
    match getAlignmentProps inherited
            (default_param (Str "edge") (obj_get props "alignment"))
            (obj_get props "direction") with
    | Props_object o => o
    | Inherited_member _ => []
    end in
  if String.eqb "gap" k then default_param (Num 2) (obj_get props "spacing")
  else if obj_has other k then obj_get other k
  else if obj_has align k then obj_get align k
  else obj_get [("direction", obj_get props "direction"); ("justify", Str "center")] k.
Proof.
  intros Hnd. cbv zeta. unfold propsForFlex_after_children.
  rewrite obj_get_set.
  destruct (String.eqb "gap" k); [reflexivity|].
  rewrite obj_get_spread by now apply NoDup_obj_rest.
  destruct (obj_has (obj_rest _ props) k); [reflexivity|].
  apply obj_get_spread.
  destruct (useHStack_align_shape inherited props)
    as (a & j & [E | [E | [E | E]]]); cbv zeta in E; rewrite E;
    repeat constructor; cbn; intuition discriminate.
Qed.

Lemma useHStack_has inherited props k :
  obj_has (propsForFlex_after_children inherited props) k =
  String.eqb "gap" k ||
  (obj_has [("direction", Undefined); ("justify", Undefined)] k ||
   obj_has
     match getAlignmentProps inherited
             (default_param (Str "edge") (obj_get props "alignment"))
             (obj_get props "direction") with
     | Props_object o => o
     | Inherited_member _ => []
     end k ||
   obj_has (obj_rest ["alignment"; "children"; "direction"; "spacing"] props) k).
Proof.
  unfold propsForFlex_after_children.
  now rewrite obj_has_set, !obj_has_spread.
Qed.

Lemma flex_get_prims {R : React} (o : obj) k :
  flex_get (map (fun kv => (fst kv, @Prim R (snd kv))) o) k =
  if obj_has o k then Some (Prim (obj_get o k)) else None.
Proof.
  induction o as [|[k1 v1] r IH]; cbn; [reflexivity|].
  destruct (String.eqb k1 k); [reflexivity | exact IH].
Qed.

Lemma nth_error_map_index_from {A B : Type} (f : A -> Z -> B) l : forall z i,
  nth_error (map_index_from z f l) i =
  option_map (fun x => f x (z + Z.of_nat i)%Z) (nth_error l i).
Proof.
  induction l as [|x r IH]; intros z [|i]; cbn [map_index_from nth_error option_map];
    try reflexivity.
  - now rewrite Z.add_0_r.
  - rewrite IH. destruct (nth_error r i); cbn; [|reflexivity].
    do 2 f_equal. lia.
Qed.



(** ** Ids across instances of the control *)

Lemma append_eq_append a : forall b s t,
  a ++ s = b ++ t ->
  (exists d, s = d ++ t /\ b = a ++ d) \/ (exists d, t = d ++ s /\ a = b ++ d).
Proof.
  induction a as [|c a IH]; intros b s t H.
  - left. exists b. split; [exact H | reflexivity].
  - destruct b as [|c' b].
    + right. exists (String c a). split; [now symmetry | reflexivity].
    + cbn in H. injection H as -> H.
      destruct (IH _ _ _ H) as [(d & E1 & E2)|(d & E1 & E2)].
      * left. exists d. split; [exact E1 | cbn; now rewrite E2].
      * right. exists d. split; [exact E1 | cbn; now rewrite E2].
Qed.

Lemma is_suffix_append d t : is_suffix t (d ++ t) = true.
Proof.
  induction d as [|c d IH]; cbn.
  - destruct t; cbn; rewrite ?String.eqb_refl, ?Ascii.eqb_refl; reflexivity.
  - rewrite IH. apply orb_true_r.
Qed.

Lemma length_append s t :
  String.length (s ++ t) = (String.length s + String.length t)%nat.
Proof. induction s as [|c s IH]; cbn; [reflexivity | now rewrite IH]. Qed.

Lemma append_empty_r s : s ++ "" = s.
Proof. induction s as [|c s IH]; cbn; [reflexivity | now rewrite IH]. Qed.

Lemma append_cancel_r a b s : a ++ s = b ++ s -> a = b.
Proof.
  intros H.
  assert (Hd : forall d, s = d ++ s -> d = "").
  { intros d E. apply (f_equal String.length) in E. rewrite length_append in E.
    destruct d; [reflexivity | cbn in E; lia]. }
  destruct (append_eq_append _ _ _ _ H) as [(d & E1 & E2)|(d & E1 & E2)];
    rewrite (Hd d E1), append_empty_r in E2; congruence.
Qed.

Lemma hyphenated_suffix c1 c2 :
  In c1 ALIGNMENTS -> In c2 ALIGNMENTS ->
  is_suffix ("-" ++ replace " " "-" c2) ("-" ++ replace " " "-" c1) = true ->
  c1 = c2.
Proof.
  rewrite !In_ALIGNMENTS. intros H1 H2.
  repeat (destruct H1 as [->|H1]); subst;
    repeat (destruct H2 as [->|H2]); subst;
    intros E; try reflexivity; discriminate E.
Qed.

(** X6: An id names its control and its value: two calls of [getItemId] that
    return the same id had the same prefix and arguments that normalise
    alike, so that controls with different prefixes share no cell id; and
    no cell id is the prefix itself, which is the id of the grid element. *)
Theorem getItemId_names_prefix_and_value
    (p1 p2 : string) (v1 v2 : val) (id : string) :
  getItemId p1 v1 = Normal (Str id) ->
  getItemId p2 v2 = Normal (Str id) ->
  p1 = p2 /\ normalize v1 = normalize v2 /\ id <> p1.
Proof.
  rewrite !getItemId_of_normalize.
  destruct (normalize v1) as [r1|e1] eqn:N1; [|discriminate].
  destruct (normalize_range _ _ N1) as [->|(c1 & -> & Hc1)]; [discriminate|].
  destruct (normalize v2) as [r2|e2] eqn:N2; [|discriminate].
  destruct (normalize_range _ _ N2) as [->|(c2 & -> & Hc2)]; [discriminate|].
  intros E1 E2. injection E1 as <-. injection E2 as E. unfold cell_id_of in *.
  assert (Hc : c1 = c2).
  { destruct (append_eq_append _ _ _ _ E) as [(d & Ed & _)|(d & Ed & _)].
    - symmetry. apply hyphenated_suffix; try assumption.
      rewrite Ed. apply is_suffix_append.
    - apply hyphenated_suffix; try assumption.
      rewrite Ed. apply is_suffix_append. }
  subst c2. apply append_cancel_r in E. subst p2.
  split; [reflexivity|]. split; [reflexivity|].
  intros Hid. apply (f_equal String.length) in Hid.
  rewrite length_append in Hid. cbn in Hid. lia.
Qed.

Lemma getItemId_names_prefix_and_value_witness :
  "alignment-matrix-control-1-top-left" <> "alignment-matrix-control-1".
Proof.
  exact (proj2 (proj2 (getItemId_names_prefix_and_value
    "alignment-matrix-control-1" "alignment-matrix-control-1"
    (Str "top left") (Str "top-left") "alignment-matrix-control-1-top-left"
    eq_refl eq_refl))).
Defined.

(** ** Rendering and activation together *)

(** X9: Activating any rendered cell reports the value that cell shows:
    whatever the active id at render time, the handler run on the id of a
    rendered cell calls [onChange] once, with that cell's [value] prop. *)
Theorem activating_rendered_cell_reports_its_value
    (baseId : string) (active : val) (rows : list (list CellProps))
    (cell : CellProps) (calls : list val) :
  render_grid baseId active = Normal rows ->
  In cell (concat rows) ->
  In (cell_value cell) ALIGNMENTS /\
  getItemValue baseId (cell_id cell) = Normal (Str (cell_value cell)) /\
  setActiveId_handler baseId (Some recording) (cell_id cell) calls
    = Normal (tt, (calls ++ [Str (cell_value cell)])%list).
Proof.
  rewrite render_grid_cells. intros H. injection H as <-. intros Hin.
  assert (Hmap : In cell (map (cell_of baseId active) ALIGNMENTS)) by exact Hin.
  apply in_map_iff in Hmap. destruct Hmap as (c & <- & Hc).
  cbn [cell_of cell_id cell_value].
  split; [exact Hc|]. split; [now apply getItemValue_cell|].
  now rewrite (handler_on_cell baseId (Some recording) c calls Hc).
Qed.

Lemma activating_rendered_cell_reports_its_value_witness :
  exists rows cell,
    render_grid "abc" Undefined = Normal rows /\
    nth_error (concat rows) 8 = Some cell /\
    setActiveId_handler "abc" (Some recording) (cell_id cell) []
      = Normal (tt, [Str "bottom right"]).
Proof.
  exists (map (map (cell_of "abc" Undefined)) GRID),
         (cell_of "abc" Undefined "bottom right").
  split; [apply render_grid_cells|]. split; [reflexivity|].
  apply (activating_rendered_cell_reports_its_value "abc" Undefined
           (map (map (cell_of "abc" Undefined)) GRID)
           (cell_of "abc" Undefined "bottom right") []).
  - apply render_grid_cells.
  - cbn. tauto.
Defined.

(** ** Selection after removing a block *)

(** X17: After a removal the menu selects at most one block, and only a block
    outside the current selection, and only when the removed block was
    itself selected.  The candidate is the previous block when there is
    one, else the next; when the previous block exists but is part of the
    selection, nothing is selected: the next block is not tried. *)
Theorem updateSelectionAfterRemove_safe
    (previous next first : val) (selected : list string) (calls calls' : list val) :
  updateSelectionAfterRemove (Some recording) previous next selected first calls
    = Normal (tt, calls') ->
  (calls' = calls \/
   exists b, calls' = (calls ++ [b])%list /\
             b = (if truthy previous then previous else next) /\
             truthy b = true /\
             includes selected b = false /\
             includes selected first = true) /\
  (includes selected first = false -> calls' = calls) /\
  (truthy previous = true -> includes selected previous = true -> calls' = calls) /\
  (truthy previous = false -> truthy next = false -> calls' = calls).
Proof.
  unfold updateSelectionAfterRemove.
  set (b := if truthy previous then previous else next).
  destruct (truthy b) eqn:Tb; destruct (includes selected first) eqn:If;
    destruct (includes selected b) eqn:Ib; cbn [andb negb];
    unfold ret, recording; intros H; injection H as <-;
    (split; [first [ now left | right; exists b; now repeat split ]|]);
    (split; [intros; first [reflexivity | discriminate]|]);
    (split; [intros Tp Ip; subst b; rewrite Tp in *; congruence
            |intros Tp Tn; subst b; rewrite Tp in *; congruence]).
Qed.

Lemma updateSelectionAfterRemove_safe_witness :
  updateSelectionAfterRemove (Some recording) (Str "a") (Str "d") ["b"; "c"] (Str "b") []
    = Normal (tt, [Str "a"]) /\
  updateSelectionAfterRemove (Some recording) (Str "a") (Str "d") ["a"; "b"] (Str "b") []
    = Normal (tt, []).
Proof.
  split.
  - destruct (updateSelectionAfterRemove_safe (Str "a") (Str "d") (Str "b")
                ["b"; "c"] [] [Str "a"] eq_refl) as (_ & _).
    reflexivity.
  - destruct (updateSelectionAfterRemove_safe (Str "a") (Str "d") (Str "b")
                ["a"; "b"] [] [] eq_refl) as (_ & _ & H & _).
    pose proof (H eq_refl eq_refl) as Hnone. reflexivity.
Defined.
